(** * Environments of reframe.core.environments

    A shallow embedding of [src/reframe/core/environments.py]: the
    [Environment] class (load, unload, is_loaded, the command emitters
    and equality), [EnvironmentSnapshot] and the [save_environment]
    guard.  The ambient process state is made explicit: [os.environ] is a
    finite map from strings to strings and the module system keeps the
    ordered list of loaded modules. *)

From stdpp Require Import base gmap list strings.
From Stdlib Require Import Ascii.

Open Scope string_scope.
Open Scope list_scope.

(* ------------------------------------------------------------------ *)
(** ** Ambient state *)

(** [os.environ] together with the state of the module system. *)
Record Ambient := mkAmbient {
  amb_env : gmap string string;
  amb_mods : list string
}.

(** Requests that an [Environment] issues to the module system, in the
    order it issues them.  [ReqIsLoaded m b] is a query answered with [b];
    [ReqLoad force m cs] is [load_module(m, force=force)] answered with the
    list [cs] of modules unloaded because of a conflict. *)
Inductive request :=
| ReqIsLoaded (m : string) (answer : bool)
| ReqLoad (force : bool) (m : string) (conflicted : list string)
| ReqUnload (m : string).

(* ------------------------------------------------------------------ *)
(** ** os.path.expandvars (posixpath) *)

(** One left-to-right pass over the string: [$name] (with [name] matching
    [\w+] in ASCII mode) or [${name}] is replaced by the value of [name] in
    the environment when it is set there and left as it is otherwise;
    scanning continues after the replaced or kept reference. *)
Definition is_word_char (c : ascii) : bool :=
  let n := nat_of_ascii c in
  (Nat.leb 48 n && Nat.leb n 57) || (Nat.leb 65 n && Nat.leb n 90) ||
  (Nat.leb 97 n && Nat.leb n 122) || Nat.eqb n 95.

Fixpoint take_word (s : string) : string * string :=
  match s with
  | String c s' =>
      if is_word_char c then let '(w, r) := take_word s' in (String c w, r)
      else ("", s)
  | EmptyString => ("", "")
  end.

Fixpoint take_brace (s : string) : option (string * string) :=
  match s with
  | EmptyString => None
  | String c s' =>
      if Ascii.eqb c "}"%char then Some ("", s')
      else match take_brace s' with
           | Some (w, r) => Some (String c w, r)
           | None => None
           end
  end.

Fixpoint expand_aux (fuel : nat) (environ : gmap string string) (s : string)
  : string :=
  match fuel with
  | O => s
  | S fuel' =>
      match s with
      | EmptyString => EmptyString
      | String c rest =>
          if Ascii.eqb c "$"%char then
            match rest with
            | String b r2 =>
                if Ascii.eqb b "{"%char then
                  match take_brace r2 with
                  | Some (nm, tail) =>
                      match environ !! nm with
                      | Some value => value +:+ expand_aux fuel' environ tail
                      | None => ("${" +:+ nm +:+ "}") +:+ expand_aux fuel' environ tail
                      end
                  | None => String c (expand_aux fuel' environ rest)
                  end
                else
                  let '(nm, tail) := take_word rest in
                  match nm with
                  | EmptyString => String c (expand_aux fuel' environ rest)
                  | _ =>
                      match environ !! nm with
                      | Some value => value +:+ expand_aux fuel' environ tail
                      | None => (String c nm) +:+ expand_aux fuel' environ tail
                      end
                  end
            | EmptyString => String c EmptyString
            end
          else String c (expand_aux fuel' environ rest)
      end
  end.

Definition expandvars (environ : gmap string string) (s : string) : string :=
  expand_aux (String.length s) environ s.

(** [x] occurs as a substring of [s]. *)
Fixpoint occurs (x s : string) : bool :=
  Strings.String.prefix x s ||
  match s with
  | String _ s' => occurs x s'
  | EmptyString => false
  end.

Example expandvars_ex1 :
  expandvars (<["HOME":="/home/u"]> ∅) "$HOME/bin:${HOME}:$NOPE:${X" =
  "/home/u/bin:/home/u:$NOPE:${X".
Proof. reflexivity. Qed.

(* ------------------------------------------------------------------ *)
(** ** The module system *)

(** The module system behind [runtime().modules_system], modelled from the
    spec: its code is missing from the sources.  A module "adds
    paths/variables when loaded": loading and unloading a module change
    [os.environ] by [module_load_env] and [module_unload_env].  Two
    modules conflict ("cannot both be active") when either of them
    declares the conflict with [conflicts]. *)
Record ModulesSystem := mkModulesSystem {
  conflicts : string -> string -> bool;
  module_load_env : string -> gmap string string -> gmap string string;
  module_unload_env : string -> gmap string string -> gmap string string
}.

(** No module load or unload changes the variable [k] of [os.environ]. *)
Definition module_keeps (sys : ModulesSystem) (k : string) : Prop :=
  ∀ m environ, module_load_env sys m environ !! k = environ !! k ∧
               module_unload_env sys m environ !! k = environ !! k.

Section Environments.

Variable sys : ModulesSystem.

(** [modules_system.is_module_loaded(name)] ("isLoaded(name) -> bool"). *)
Definition is_module_loaded (st : list string) (m : string) : bool :=
  bool_decide (m ∈ st).

Definition conflicting (m x : string) : bool :=
  conflicts sys m x || conflicts sys x m.

(** [modules_system.load_module(name, force)]: loading an already loaded
    module is an idempotent no-op.  Otherwise the loaded modules that
    conflict with [m] are unloaded first ("loading one forces the backend
    to unload the other"), then [m] is loaded.  With [force] they are
    returned ("load(name, force) -> list of names force-unloaded due to
    conflict"); without it the module system swaps them out on its own and
    nothing is returned. *)
Definition load_module (force : bool) (m : string) (a : Ambient)
  : list string * Ambient :=
  if is_module_loaded (amb_mods a) m then ([], a)
  else
    let cs := filter (fun x => conflicting m x = true) (amb_mods a) in
    let environ := fold_left (fun env c => module_unload_env sys c env) cs (amb_env a) in
    (if force then cs else [],
     mkAmbient (module_load_env sys m environ)
               (filter (fun x => x ∉ cs) (amb_mods a) ++ [m])).

(** [modules_system.unload_module(name)]: a no-op when [m] is not loaded. *)
Definition unload_module (m : string) (a : Ambient) : Ambient :=
  if is_module_loaded (amb_mods a) m then
    mkAmbient (module_unload_env sys m (amb_env a)) (filter (fun x => x ≠ m) (amb_mods a))
  else a.

(* ------------------------------------------------------------------ *)
(** ** Environment *)

Inductive module_op := OpLoad | OpUnload.   (* 'l' and 'u' *)

Record Environment := mkEnvironment {
  name : string;
  modules : list string;
  variables : list (string * string);       (* an OrderedDict *)
  loaded : bool;
  saved_variables : gmap string string;
  conflicted : list string;
  preloaded : gset string;
  module_ops : list (module_op * string)
}.

(** [collections.OrderedDict(pairs)]: a repeated key keeps its first
    position and takes its last value. *)
Fixpoint od_set (k v : string) (d : list (string * string))
  : list (string * string) :=
  match d with
  | [] => [(k, v)]
  | (k', v') :: d' => if bool_decide (k = k') then (k, v) :: d'
                      else (k', v') :: od_set k v d'
  end.

Definition OrderedDict (pairs : list (string * string))
  : list (string * string) :=
  fold_left (fun d '(k, v) => od_set k v d) pairs [].

(** The body of [Environment.__init__]. *)
Definition Environment_new (nm : string) (ms : list string)
    (vs : list (string * string)) : Environment :=
  {| name := nm; modules := ms; variables := OrderedDict vs;
     loaded := false; saved_variables := ∅; conflicted := [];
     preloaded := ∅; module_ops := [] |}.

(** One iteration of the module loop of [Environment.load]. *)
Definition load_step (e : Environment) (a : Ambient) (m : string)
  : Environment * Ambient * list request :=
  let pre := is_module_loaded (amb_mods a) m in
  let pl := if pre then {[m]} ∪ preloaded e else preloaded e in
  let '(cs, a') := load_module true m a in
  ({| name := name e; modules := modules e; variables := variables e;
      loaded := loaded e; saved_variables := saved_variables e;
      conflicted := conflicted e ++ cs; preloaded := pl;
      module_ops := module_ops e ++ map (fun c => (OpUnload, c)) cs
                    ++ [(OpLoad, m)] |},
   a', [ReqIsLoaded m pre; ReqLoad true m cs]).

Fixpoint load_modules (ms : list string) (e : Environment) (a : Ambient)
  : Environment * Ambient * list request :=
  match ms with
  | [] => (e, a, [])
  | m :: ms' =>
      let '(e1, a1, t1) := load_step e a m in
      let '(e2, a2, t2) := load_modules ms' e1 a1 in
      (e2, a2, t1 ++ t2)
  end.

(** The variable loop of [Environment.load]: save the old value, then set
    the expanded value. *)
Fixpoint load_variables (vs : list (string * string))
    (saved environ : gmap string string) : gmap string string * gmap string string :=
  match vs with
  | [] => (saved, environ)
  | (k, v) :: vs' =>
      let saved' := match environ !! k with
                    | Some old => <[k:=old]> saved
                    | None => saved
                    end in
      load_variables vs' saved' (<[k:=expandvars environ v]> environ)
  end.

Definition load (e : Environment) (a : Ambient)
  : Environment * Ambient * list request :=
  let '(e1, a1, t) := load_modules (modules e) e a in
  let '(saved, environ) := load_variables (variables e1) (saved_variables e1) (amb_env a1) in
  ({| name := name e1; modules := modules e1; variables := variables e1;
      loaded := true; saved_variables := saved; conflicted := conflicted e1;
      preloaded := preloaded e1; module_ops := module_ops e1 |},
   mkAmbient environ (amb_mods a1), t).

(** The variable loop of [Environment.unload]. *)
Fixpoint restore_variables (vs : list (string * string))
    (saved environ : gmap string string) : gmap string string :=
  match vs with
  | [] => environ
  | (k, _) :: vs' =>
      let environ' := match saved !! k with
                      | Some old => <[k:=old]> environ
                      | None => match environ !! k with
                                | Some _ => delete k environ
                                | None => environ
                                end
                      end in
      restore_variables vs' saved environ'
  end.

(** [for m in reversed(self._modules): if m not in self._preloaded: ...] *)
Fixpoint unload_modules (ms : list string) (pl : gset string) (a : Ambient)
  : Ambient * list request :=
  match ms with
  | [] => (a, [])
  | m :: ms' =>
      if bool_decide (m ∈ pl) then unload_modules ms' pl a
      else let '(a', t) := unload_modules ms' pl (unload_module m a) in
           (a', ReqUnload m :: t)
  end.

(** [for m in self._conflicted: load_module(m)] *)
Fixpoint reload_modules (ms : list string) (a : Ambient)
  : Ambient * list request :=
  match ms with
  | [] => (a, [])
  | m :: ms' =>
      let '(cs, a1) := load_module false m a in
      let '(a2, t) := reload_modules ms' a1 in
      (a2, ReqLoad false m cs :: t)
  end.

(** [Environment.unload]: the variables first, then the modules. *)
Definition unload (e : Environment) (a : Ambient)
  : Environment * Ambient * list request :=
  if negb (loaded e) then (e, a, [])
  else
    let environ := restore_variables (variables e) (saved_variables e) (amb_env a) in
    let '(a1, t1) := unload_modules (rev (modules e)) (preloaded e)
                                    (mkAmbient environ (amb_mods a)) in
    let '(a2, t2) := reload_modules (conflicted e) a1 in
    ({| name := name e; modules := modules e; variables := variables e;
        loaded := false; saved_variables := saved_variables e;
        conflicted := conflicted e; preloaded := preloaded e;
        module_ops := module_ops e |},
     a2, t1 ++ t2).

(** [Environment.is_loaded]: every module is loaded and every variable has
    its expanded value in [os.environ] now. *)
Definition is_loaded (e : Environment) (a : Ambient) : bool :=
  forallb (is_module_loaded (amb_mods a)) (modules e) &&
  forallb (fun '(k, v) => match amb_env a !! k with
                          | Some cur => bool_decide (cur = expandvars (amb_env a) v)
                          | None => false
                          end) (variables e).

(** The command text of the module system for loading and unloading one
    module ([emit_load_commands] and [emit_unload_commands] of
    [modules_system]). *)
Variable emit_module_load : string -> list string.
Variable emit_module_unload : string -> list string.

(** [Environment.emit_load_commands] *)
Definition emit_load_commands (e : Environment) : list string :=
  let emit_fn op := match op with
                    | OpLoad => emit_module_load
                    | OpUnload => emit_module_unload
                    end in
  let mops := match module_ops e with
              | [] => map (fun m => (OpLoad, m)) (modules e)
              | ops => ops
              end in
  let ret := fold_left (fun ret '(op, m) => ret ++ emit_fn op m) mops [] in
  fold_left (fun ret '(k, v) => ret ++ ["export " +:+ k +:+ "=" +:+ v])
            (variables e) ret.

(** [Environment.emit_unload_commands]: the roles of the two emitters are
    swapped. *)
Definition emit_unload_commands (e : Environment) : list string :=
  let emit_fn op := match op with
                    | OpLoad => emit_module_unload
                    | OpUnload => emit_module_load
                    end in
  let ret := fold_left (fun ret '(k, _) => ret ++ ["unset " +:+ k])
                       (variables e) [] in
  let mops := match module_ops e with
              | [] => map (fun m => (OpLoad, m)) (rev (modules e))
              | ops => rev ops
              end in
  fold_left (fun ret '(op, m) => ret ++ emit_fn op m) mops ret.

End Environments.

(* ------------------------------------------------------------------ *)
(** ** Equality *)

(** [OrderedDict.__eq__] against another [OrderedDict]:
    [dict.__eq__(self, other) and all(map(_eq, self, other))], i.e. the
    same mapping and the same keys position by position. *)
Fixpoint keys_pairwise_eq (ks1 ks2 : list string) : bool :=
  match ks1, ks2 with
  | k1 :: r1, k2 :: r2 => bool_decide (k1 = k2) && keys_pairwise_eq r1 r2
  | _, _ => true
  end.

Definition od_eq (d1 d2 : list (string * string)) : bool :=
  bool_decide (list_to_map d1 =@{gmap string string} list_to_map d2) &&
  keys_pairwise_eq (map fst d1) (map fst d2).

(** [Environment.__eq__] for two objects of the same class. *)
Definition Environment_eq (e1 e2 : Environment) : bool :=
  bool_decide (name e1 = name e2) &&
  bool_decide (list_to_set (modules e1) =@{gset string} list_to_set (modules e2)) &&
  od_eq (variables e1) (variables e2).

(* ------------------------------------------------------------------ *)
(** ** Construction and the class namespace *)

Inductive py_error :=
| TypeError (msg : string)
| AttributeError (msg : string)
| NotImplementedError (msg : string).

Inductive PyVal :=
| PyStr (s : string)
| PyList (l : list string)
| PyDict (d : list (string * string))
| PyOther.

(** [typ.Str[r'(\w|-)+']]: a string fully matched by [(\w|-)+]. *)
Definition is_ident_char (c : ascii) : bool :=
  is_word_char c || Ascii.eqb c "-"%char.

Fixpoint all_ident_chars (s : string) : bool :=
  match s with
  | EmptyString => true
  | String c s' => is_ident_char c && all_ident_chars s'
  end.

Definition matches_ident (s : string) : bool :=
  match s with
  | EmptyString => false
  | _ => all_ident_chars s
  end.

Definition check_ident (v : PyVal) : bool :=
  match v with PyStr s => matches_ident s | _ => false end.
Definition check_str_list (v : PyVal) : bool :=
  match v with PyList _ => true | _ => false end.
Definition check_str_dict (v : PyVal) : bool :=
  match v with PyDict _ => true | _ => false end.

(** Class attributes: a [fields.TypedField] data descriptor (storing under
    [field] after its type check), a read-only [property], or a method. *)
Inductive class_attr :=
| TypedField (field : string) (check : PyVal -> bool)
| Property
| Method.

(** The body of [class Environment], in source order. *)
Definition Environment_class_body : list (string * class_attr) :=
  [("name", TypedField "name" check_ident);
   ("modules", TypedField "modules" check_str_list);
   ("variables", TypedField "variables" check_str_dict);
   ("__init__", Method);
   ("name", Property);
   ("modules", Property);
   ("variables", Property);
   ("is_loaded", Property);
   ("load", Method);
   ("unload", Method);
   ("emit_load_commands", Method);
   ("emit_unload_commands", Method);
   ("__eq__", Method);
   ("details", Method);
   ("__str__", Method);
   ("__repr__", Method)].

(** The class namespace: a later binding of a name replaces an earlier
    one. *)
Definition class_lookup (body : list (string * class_attr)) (k : string)
  : option class_attr :=
  fold_left (fun acc '(k', v) => if bool_decide (k = k') then Some v else acc)
            body None.

(** [setattr(obj, k, v)] on an instance of the class. *)
Definition py_setattr (body : list (string * class_attr)) (k : string) (v : PyVal)
  : py_error + unit :=
  match class_lookup body k with
  | Some (TypedField _ chk) =>
      if chk v then inr tt else inl (TypeError ("failed to set field " +:+ k))
  | Some Property => inl (AttributeError "can't set attribute")
  | _ => inr tt
  end.

(** [Environment.__init__], with the attribute assignments it performs. *)
Definition Environment_init (nm : string) (ms : list string)
    (vs : list (string * string)) : py_error + Environment :=
  match py_setattr Environment_class_body "_name" (PyStr nm) with
  | inl err => inl err
  | inr _ =>
  match py_setattr Environment_class_body "_modules" (PyList ms) with
  | inl err => inl err
  | inr _ =>
  match py_setattr Environment_class_body "_variables" (PyDict (OrderedDict vs)) with
  | inl err => inl err
  | inr _ => inr (Environment_new nm ms vs)
  end end end.

(* ------------------------------------------------------------------ *)
(** ** EnvironmentSnapshot and save_environment *)

Record EnvironmentSnapshot := mkSnapshot {
  snap_name : string;
  snap_modules : list string;
  snap_variables : gmap string string;    (* dict(os.environ) *)
  snap_loaded : bool
}.

(** [EnvironmentSnapshot.__init__] *)
Definition EnvironmentSnapshot_new (nm : string) (a : Ambient) : EnvironmentSnapshot :=
  {| snap_name := nm; snap_modules := amb_mods a;
     snap_variables := amb_env a; snap_loaded := false |}.

(** [EnvironmentSnapshot.load]: [os.environ.clear()] then
    [os.environ.update(self._variables)]; no module request. *)
Definition snapshot_load (s : EnvironmentSnapshot) (a : Ambient)
  : EnvironmentSnapshot * Ambient * list request :=
  let environ : gmap string string := ∅ in
  let environ := snap_variables s ∪ environ in
  ({| snap_name := snap_name s; snap_modules := snap_modules s;
      snap_variables := snap_variables s; snap_loaded := true |},
   mkAmbient environ (amb_mods a), []).

(** Objects of the two classes, for attribute and method dispatch. *)
Inductive env_object :=
| EnvironmentObj (e : Environment)
| SnapshotObj (s : EnvironmentSnapshot).

(** Reading [obj.is_loaded]. *)
Definition get_is_loaded (o : env_object) (a : Ambient)
  : (py_error + bool) * Ambient :=
  match o with
  | EnvironmentObj e => (inr (is_loaded e a), a)
  | SnapshotObj _ =>
      (inl (NotImplementedError
              "is_loaded is not a valid property of an environment snapshot"), a)
  end.

(** Calling [obj.unload()]. *)
Definition call_unload (sys : ModulesSystem) (o : env_object) (a : Ambient)
  : (py_error + env_object) * Ambient * list request :=
  match o with
  | EnvironmentObj e =>
      let '(e', a', t) := unload sys e a in (inr (EnvironmentObj e'), a', t)
  | SnapshotObj _ =>
      (inl (NotImplementedError "cannot unload an environment snapshot"), a, [])
  end.

(** [save_environment]: [__init__] takes the snapshot, [__exit__] loads it. *)
Record save_environment := mkSaveEnvironment { environ_save : EnvironmentSnapshot }.

Definition save_environment_new (a : Ambient) : save_environment :=
  {| environ_save := EnvironmentSnapshot_new "env_snapshot" a |}.

Definition save_environment_exit (g : save_environment) (a : Ambient)
  : save_environment * Ambient * list request :=
  let '(s', a', t) := snapshot_load (environ_save g) a in
  ({| environ_save := s' |}, a', t).

(* ------------------------------------------------------------------ *)
(** ** swap_environments *)

(** [swap_environments(src, dst)]: [src.unload()], then [dst.load()]. *)
Definition swap_environments (sys : ModulesSystem)
    (src dst : Environment) (a : Ambient)
  : Environment * Environment * Ambient * list request :=
  let '(src', a1, t1) := unload sys src a in
  let '(dst', a2, t2) := load sys dst a1 in
  (src', dst', a2, t1 ++ t2).

(* ------------------------------------------------------------------ *)
(** ** details *)

(** [sep.join(items)] *)
Fixpoint str_join (sep : string) (l : list string) : string :=
  match l with
  | [] => ""
  | [x] => x
  | x :: l' => x +:+ sep +:+ str_join sep l'
  end.

(** ['\n'] *)
Definition nl : string := String (ascii_of_nat 10) EmptyString.

(** [Environment.details]: [' '*8 + '- %s=%s' % (k, v)] per variable;
    the newline after [variables:] is added only when that text is not
    empty. *)
Definition details (e : Environment) : string :=
  let vars := str_join nl (map (fun '(k, v) => "        " +:+ ("- " +:+ k +:+ "=" +:+ v))
                               (variables e)) in
  let lines := [name e +:+ ":";
                "    modules: " +:+ str_join ", " (modules e);
                "    variables:" +:+ (if bool_decide (vars = "") then "" else nl) +:+ vars] in
  str_join nl lines.

(* ------------------------------------------------------------------ *)
(** ** ProgEnvironment *)

(** The attributes that [ProgEnvironment.__init__] adds to those of
    [Environment]; [cxx], [ftn] and the flags accept [None]. *)
Record ProgEnvironment := mkProgEnvironment {
  prog_env : Environment;
  prog_cc : string;
  prog_cxx : option string;
  prog_ftn : option string;
  prog_nvcc : string;
  prog_cppflags : option string;
  prog_cflags : option string;
  prog_cxxflags : option string;
  prog_fflags : option string;
  prog_ldflags : option string;
  prog_include_search_path : list string;
  prog_propagate : bool
}.

(** [ProgEnvironment.__init__]: [super().__init__(name, modules,
    variables)], then the compiler attributes; the include search path and
    [propagate] are always reset, whatever the keyword arguments. *)
Definition ProgEnvironment_new (nm : string) (ms : list string)
    (vs : list (string * string)) (cc : string) (cxx ftn : option string)
    (nvcc : string) (cppflags cflags cxxflags fflags ldflags : option string)
  : ProgEnvironment :=
  {| prog_env := Environment_new nm ms vs;
     prog_cc := cc; prog_cxx := cxx; prog_ftn := ftn; prog_nvcc := nvcc;
     prog_cppflags := cppflags; prog_cflags := cflags; prog_cxxflags := cxxflags;
     prog_fflags := fflags; prog_ldflags := ldflags;
     prog_include_search_path := []; prog_propagate := true |}.

(* ------------------------------------------------------------------ *)
(** ** The == operator across the environment classes *)

Inductive py_class :=
| ClsEnvironment
| ClsEnvironmentSnapshot
| ClsProgEnvironment.

#[global] Instance py_class_eq_dec : EqDecision py_class.
Proof. solve_decision. Defined.

(** [issubclass(c1, c2)]: both subclasses derive from [Environment]. *)
Definition py_issubclass (c1 c2 : py_class) : bool :=
  match c1, c2 with
  | ClsEnvironment, ClsEnvironment => true
  | ClsEnvironmentSnapshot, ClsEnvironmentSnapshot => true
  | ClsProgEnvironment, ClsProgEnvironment => true
  | _, ClsEnvironment => true
  | _, _ => false
  end.

(** [self._variables]: an [OrderedDict] in [Environment.__init__], a
    plain [dict] in [EnvironmentSnapshot.__init__]. *)
Inductive var_store :=
| OrderedDictVal (d : list (string * string))
| DictVal (d : gmap string string).

Definition var_store_map (v : var_store) : gmap string string :=
  match v with
  | OrderedDictVal d => list_to_map d
  | DictVal d => d
  end.

(** [==] on the two stores: order-sensitive between two [OrderedDict]s,
    plain mapping equality as soon as one side is a [dict]. *)
Definition var_store_eq (v1 v2 : var_store) : bool :=
  match v1, v2 with
  | OrderedDictVal d1, OrderedDictVal d2 => od_eq d1 d2
  | _, _ => bool_decide (var_store_map v1 = var_store_map v2)
  end.

(** The attributes of an instance that [__eq__] reads. *)
Record env_instance := mkInstance {
  inst_class : py_class;
  inst_name : string;
  inst_modules : list string;
  inst_variables : var_store
}.

Definition Environment_instance (e : Environment) : env_instance :=
  mkInstance ClsEnvironment (name e) (modules e) (OrderedDictVal (variables e)).

Definition EnvironmentSnapshot_instance (s : EnvironmentSnapshot) : env_instance :=
  mkInstance ClsEnvironmentSnapshot (snap_name s) (snap_modules s) (DictVal (snap_variables s)).

Definition ProgEnvironment_instance (p : ProgEnvironment) : env_instance :=
  mkInstance ClsProgEnvironment (name (prog_env p)) (modules (prog_env p))
             (OrderedDictVal (variables (prog_env p))).

(** [Environment.__eq__(self, other)], inherited by both subclasses;
    [None] is [NotImplemented], returned when [other] is not an instance
    of [type(self)]. *)
Definition Environment_eq_method (self other : env_instance) : option bool :=
  if py_issubclass (inst_class other) (inst_class self) then
    Some (bool_decide (inst_name self = inst_name other) &&
          bool_decide (list_to_set (inst_modules self) =@{gset string}
                       list_to_set (inst_modules other)) &&
          var_store_eq (inst_variables self) (inst_variables other))
  else None.

(** [x == y]: the reflected [y.__eq__(x)] goes first when [type(y)] is a
    proper subclass of [type(x)]; a [NotImplemented] passes to the other
    side; when both decline, [x is y], which is false for instances of two
    different classes (the only case in which both decline). *)
Definition py_eq (x y : env_instance) : bool :=
  let reflected_first :=
    negb (bool_decide (inst_class x = inst_class y)) &&
    py_issubclass (inst_class y) (inst_class x) in
  let '(r1, r2) := if reflected_first
                   then (Environment_eq_method y x, Environment_eq_method x y)
                   else (Environment_eq_method x y, Environment_eq_method y x) in
  match r1 with
  | Some b => b
  | None => match r2 with Some b => b | None => false end
  end.

(** A module system for concrete runs: the modules [m] and [x] conflict
    when [(m, x)] is in [ps]; a module [m] sets [k=v] for every
    [(m, (k, v))] in [vs] when loaded and unsets [k] when unloaded. *)
Definition example_system (ps : list (string * string))
    (vs : list (string * (string * string))) : ModulesSystem :=
  {| conflicts := fun m x => bool_decide ((m, x) ∈ ps);
     module_load_env := fun m environ =>
       fold_left (fun env '(m', (k, v)) => if bool_decide (m' = m) then <[k:=v]> env else env)
                 vs environ;
     module_unload_env := fun m environ =>
       fold_left (fun env '(m', (k, _)) => if bool_decide (m' = m) then delete k env else env)
                 vs environ |}.

(* ================================================================== *)
(** * Properties *)

(** Membership in [filter] and [rev] for [set_solver]. *)
#[global] Instance set_unfold_list_filter {A} (P : A -> Prop)
  `{!∀ x, Decision (P x)} (x : A) (l : list A) Q :
  SetUnfoldElemOf x l Q -> SetUnfoldElemOf x (filter P l) (P x ∧ Q).
Proof.
  intros HQ. constructor. rewrite list_elem_of_filter.
  by rewrite (set_unfold_elem_of x l Q).
Qed.

#[global] Instance set_unfold_list_rev {A} (x : A) (l : list A) Q :
  SetUnfoldElemOf x l Q -> SetUnfoldElemOf x (rev l) Q.
Proof.
  intros HQ. constructor. rewrite <- (set_unfold_elem_of x l Q).
  rewrite !list_elem_of_In. symmetry. apply in_rev.
Qed.

Lemma fmap_fst_map (d : list (string * string)) : d.*1 = map fst d.
Proof. induction d as [|p d IH]; simpl; [done|]. by rewrite <- IH. Qed.

Lemma fold_left_app_acc {A B} (f : A -> list B) (l : list A) (acc : list B) :
  fold_left (fun ret x => ret ++ f x) l acc = acc ++ flat_map f l.
Proof.
  revert acc. induction l as [|x l IH]; intros acc; simpl.
  - by rewrite app_nil_r.
  - by rewrite IH, app_assoc.
Qed.

Lemma fold_left_pair_app {A B C} (h : A -> B -> list C) (l : list (A * B))
    (acc : list C) :
  fold_left (fun ret '(x, y) => ret ++ h x y) l acc =
  acc ++ flat_map (fun '(x, y) => h x y) l.
Proof.
  revert acc. induction l as [|[x y] l IH]; intros acc; simpl.
  - by rewrite app_nil_r.
  - by rewrite IH, app_assoc.
Qed.

(** ** OrderedDict *)

Lemma od_set_keys (k v : string) (d : list (string * string)) x :
  x ∈ map fst (od_set k v d) -> x = k ∨ x ∈ map fst d.
Proof.
  induction d as [|[k' v'] d IH]; simpl.
  - set_solver.
  - case_bool_decide; subst; simpl; [set_solver|].
    intros [->|Hx]%elem_of_cons; [set_solver|].
    destruct (IH Hx); set_solver.
Qed.

Lemma od_set_NoDup (k v : string) (d : list (string * string)) :
  NoDup (map fst d) -> NoDup (map fst (od_set k v d)).
Proof.
  induction d as [|[k' v'] d IH]; simpl; intros Hnd.
  - constructor; [set_solver|constructor].
  - inversion Hnd as [|? ? Hk' Hd]; subst.
    case_bool_decide; subst; simpl; [by constructor|].
    constructor; [|by apply IH].
    intros Hin. destruct (od_set_keys k v d k' Hin); [congruence|done].
Qed.

Lemma OrderedDict_NoDup (vs : list (string * string)) :
  NoDup (map fst (OrderedDict vs)).
Proof.
  unfold OrderedDict.
  assert (Hgen : ∀ acc, NoDup (map fst acc) ->
            NoDup (map fst (fold_left (fun d '(k, v) => od_set k v d) vs acc))).
  { induction vs as [|[k v] vs IH]; intros acc Hacc; simpl; [done|].
    apply IH, od_set_NoDup, Hacc. }
  apply Hgen. constructor.
Qed.

Lemma list_to_map_keys_eq (d1 d2 : list (string * string)) :
  NoDup (map fst d1) -> NoDup (map fst d2) ->
  keys_pairwise_eq (map fst d1) (map fst d2) = true ->
  list_to_map d1 =@{gmap string string} list_to_map d2 -> d1 = d2.
Proof.
  revert d2. induction d1 as [|[k1 v1] r1 IH]; intros d2 Hn1 Hn2 Hk Hm.
  - destruct d2 as [|[k2 v2] r2]; [done|].
    simpl in Hm. exfalso.
    assert (Hl : (∅ : gmap string string) !! k2 = Some v2)
      by (rewrite Hm; apply lookup_insert_eq).
    by rewrite lookup_empty in Hl.
  - destruct d2 as [|[k2 v2] r2].
    + simpl in Hm. exfalso.
      assert (Hl : (∅ : gmap string string) !! k1 = Some v1)
        by (rewrite <- Hm; apply lookup_insert_eq).
      by rewrite lookup_empty in Hl.
    + simpl in Hk. apply andb_true_iff in Hk as [Hk12 Hk].
      apply bool_decide_eq_true in Hk12. subst k2.
      simpl in Hn1, Hn2.
      inversion Hn1 as [|? ? Hk1 Hr1]; inversion Hn2 as [|? ? Hk2 Hr2]; subst.
      simpl in Hm.
      assert (Hv : v1 = v2).
      { assert (Hl := f_equal (lookup k1) Hm). simpl in Hl.
        rewrite !lookup_insert_eq in Hl. congruence. }
      subst v2.
      assert (Hr : list_to_map r1 =@{gmap string string} list_to_map r2).
      { assert (Hd := f_equal (delete k1) Hm). simpl in Hd.
        rewrite !delete_insert_id in Hd; [done| |];
          apply not_elem_of_list_to_map_1; by rewrite fmap_fst_map. }
      f_equal. by apply IH.
Qed.

Lemma keys_pairwise_eq_refl (ks : list string) : keys_pairwise_eq ks ks = true.
Proof.
  induction ks as [|k ks IH]; simpl; [done|].
  rewrite IH, andb_true_r. by apply bool_decide_eq_true.
Qed.

Lemma od_eq_spec (d1 d2 : list (string * string)) :
  NoDup (map fst d1) -> NoDup (map fst d2) -> od_eq d1 d2 = true <-> d1 = d2.
Proof.
  intros Hn1 Hn2. unfold od_eq. rewrite andb_true_iff, bool_decide_eq_true.
  split.
  - intros [Hm Hk]. by apply list_to_map_keys_eq.
  - intros ->. split; [done|apply keys_pairwise_eq_refl].
Qed.

(** ** Equality *)

(** C2 (counterexample): two Environments with the same name, the same
    modules and the same variable mapping, differing only in the insertion
    order of their variables, do not compare equal. *)
Lemma Environment_eq_insertion_order_cex :
  let A := Environment_new "e" [] [("A", "1"); ("B", "2")] in
  let B := Environment_new "e" [] [("B", "2"); ("A", "1")] in
  name A = name B ∧ modules A = modules B ∧
  list_to_map (variables A) =@{gmap string string} list_to_map (variables B) ∧
  Environment_eq A B = false.
Proof. vm_compute. repeat split; reflexivity. Qed.

(** C2 (amended): two Environments (of the same class) are equal iff they
    have the same name, the same set of modules, and the same variables as
    ordered mappings: the same keys in the same insertion order, with equal
    values. *)
Theorem Environment_eq_iff (nm1 nm2 : string) (ms1 ms2 : list string)
    (vs1 vs2 : list (string * string)) :
  Environment_eq (Environment_new nm1 ms1 vs1) (Environment_new nm2 ms2 vs2) = true <->
  nm1 = nm2 ∧ (∀ m, m ∈ ms1 <-> m ∈ ms2) ∧ OrderedDict vs1 = OrderedDict vs2.
Proof.
  unfold Environment_eq; simpl.
  rewrite !andb_true_iff, !bool_decide_eq_true.
  rewrite (od_eq_spec _ _ (OrderedDict_NoDup vs1) (OrderedDict_NoDup vs2)).
  assert (Hset : list_to_set ms1 =@{gset string} list_to_set ms2 <->
                 (∀ m, m ∈ ms1 <-> m ∈ ms2)).
  { split; intros H.
    - intros m. rewrite <- !(elem_of_list_to_set (C:=gset string)). by rewrite H.
    - apply set_eq. intros m. rewrite !elem_of_list_to_set. apply H. }
  rewrite Hset. tauto.
Qed.

(** ** Command emission *)

(** C6: [emit_unload_commands] is one [unset NAME] per declared variable in
    declared order, then the module operation log in reverse order with the
    roles of the load and unload emitters swapped; with an empty log, the
    unload commands of the declared modules in reverse declared order. *)
Theorem emit_unload_commands_spec (emit_load emit_unload : string -> list string)
    (e : Environment) :
  emit_unload_commands emit_load emit_unload e =
  map (fun kv => "unset " +:+ kv.1) (variables e) ++
  match module_ops e with
  | [] => flat_map emit_unload (rev (modules e))
  | ops => flat_map (fun '(op, m) => match op with
                                     | OpLoad => emit_unload m
                                     | OpUnload => emit_load m
                                     end) (rev ops)
  end.
Proof.
  unfold emit_unload_commands.
  rewrite !fold_left_pair_app. simpl. f_equal.
  - induction (variables e) as [|[k v] vs IH]; simpl; [done|]. by rewrite IH.
  - destruct (module_ops e) as [|o ops].
    + induction (rev (modules e)) as [|m ms IH]; simpl; [done|]. by rewrite IH.
    + apply flat_map_ext. intros [[] m]; reflexivity.
Qed.

(** ** Construction *)

(** C7 (code defect): the validating [TypedField] for [name] is replaced in
    the class namespace by the later read-only [name] property, and
    [__init__] stores [self._name] directly; so construction accepts every
    name, e.g. ["@bad"], which does not match [(\w|-)+]. *)
Theorem Environment_init_accepts_any_name :
  class_lookup Environment_class_body "name" = Some Property ∧
  matches_ident "@bad" = false ∧
  Environment_init "@bad" [] [] = inr (Environment_new "@bad" [] []) ∧
  (∀ nm ms vs, Environment_init nm ms vs = inr (Environment_new nm ms vs)).
Proof. repeat split; reflexivity. Qed.

(** ** EnvironmentSnapshot *)

(** C8: on an [EnvironmentSnapshot], reading [is_loaded] and calling
    [unload()] raise [NotImplementedError], leave the ambient state as it
    is and issue no module request. *)
Theorem snapshot_is_loaded_unload_unsupported (sys : ModulesSystem)
    (s : EnvironmentSnapshot) (a : Ambient) :
  (∃ msg, get_is_loaded (SnapshotObj s) a = (inl (NotImplementedError msg), a)) ∧
  (∃ msg, call_unload sys (SnapshotObj s) a = (inl (NotImplementedError msg), a, [])).
Proof. split; eexists; reflexivity. Qed.

(** C10: [EnvironmentSnapshot.load] replaces [os.environ] by the captured
    copy and issues no module request, so the loaded modules stay as they
    are; the same holds for leaving a [save_environment] block, although
    the snapshot captured the loaded modules when it was taken. *)
Theorem snapshot_load_keeps_modules (s : EnvironmentSnapshot) (a0 a : Ambient) :
  (let '(_, a', t) := snapshot_load s a in
   amb_env a' = snap_variables s ∧ amb_mods a' = amb_mods a ∧ t = []) ∧
  snap_modules (environ_save (save_environment_new a0)) = amb_mods a0 ∧
  (let '(_, a', t) := save_environment_exit (save_environment_new a0) a in
   amb_env a' = amb_env a0 ∧ amb_mods a' = amb_mods a ∧ t = []).
Proof.
  unfold save_environment_exit, snapshot_load, save_environment_new,
    EnvironmentSnapshot_new; simpl.
  rewrite !(right_id_L ∅ (∪)). auto.
Qed.

(** ** is_loaded *)

Lemma is_loaded_spec (e : Environment) (a : Ambient) :
  is_loaded e a = true <->
  (∀ m, m ∈ modules e -> m ∈ amb_mods a) ∧
  (∀ k v, (k, v) ∈ variables e -> amb_env a !! k = Some (expandvars (amb_env a) v)).
Proof.
  unfold is_loaded. rewrite andb_true_iff, !forallb_forall.
  split; intros [H1 H2]; split.
  - intros m Hm. apply list_elem_of_In in Hm.
    specialize (H1 m Hm). unfold is_module_loaded in H1.
    by apply bool_decide_eq_true in H1.
  - intros k v Hkv. apply list_elem_of_In in Hkv.
    specialize (H2 _ Hkv). simpl in H2.
    destruct (amb_env a !! k) eqn:E; [|discriminate].
    apply bool_decide_eq_true in H2. by subst.
  - intros m Hm. apply list_elem_of_In in Hm.
    unfold is_module_loaded. apply bool_decide_eq_true. auto.
  - intros [k v] Hkv. apply list_elem_of_In in Hkv.
    rewrite (H2 k v Hkv). by apply bool_decide_eq_true.
Qed.

(** C9: [is_loaded] is computed from the ambient state alone: it holds iff
    every declared module is loaded and every declared variable has its
    expanded declared value in [os.environ]; it does not depend on the
    activation bookkeeping, and holds for an Environment that was never
    loaded when the ambient state already matches it. *)
Theorem is_loaded_from_ambient :
  (∀ (e : Environment) (a : Ambient),
     (is_loaded e a = true <->
        (∀ m, m ∈ modules e -> m ∈ amb_mods a) ∧
        (∀ k v, (k, v) ∈ variables e ->
                amb_env a !! k = Some (expandvars (amb_env a) v))) ∧
     is_loaded e a =
       is_loaded (mkEnvironment (name e) (modules e) (variables e)
                                false ∅ [] ∅ []) a) ∧
  (∃ (e : Environment) (a : Ambient),
     loaded e = false ∧ module_ops e = [] ∧ is_loaded e a = true).
Proof.
  split.
  - intros e a. split; [apply is_loaded_spec|reflexivity].
  - exists (Environment_new "gcc-env" ["gcc/7.3.0"] [("CC", "gcc")]),
      (mkAmbient (<["CC":="gcc"]> ∅) ["gcc/7.3.0"]).
    split; [reflexivity|]. split; [reflexivity|]. vm_compute. reflexivity.
Qed.

(** ** Frame lemmas for the loops of load and unload *)

Section LoadUnload.

Variable sys : ModulesSystem.

Lemma load_step_fields (e : Environment) (a : Ambient) (m : string) e1 a1 t1 :
  load_step sys e a m = (e1, a1, t1) ->
  name e1 = name e ∧ modules e1 = modules e ∧ variables e1 = variables e ∧
  saved_variables e1 = saved_variables e ∧
  (∃ cs, conflicted e1 = conflicted e ++ cs) ∧ preloaded e ⊆ preloaded e1.
Proof.
  unfold load_step. destruct (load_module sys true m a) as [cs a'].
  intros H. inversion H; subst; simpl.
  repeat split; [eauto|]. destruct (is_module_loaded (amb_mods a) m); set_solver.
Qed.

Lemma load_modules_fields (ms : list string) (e : Environment) (a : Ambient) e' a' t :
  load_modules sys ms e a = (e', a', t) ->
  name e' = name e ∧ modules e' = modules e ∧ variables e' = variables e ∧
  saved_variables e' = saved_variables e ∧
  (∃ cs, conflicted e' = conflicted e ++ cs) ∧ preloaded e ⊆ preloaded e'.
Proof.
  revert e a e' a' t. induction ms as [|m ms IH]; intros e a e' a' t H; simpl in H.
  - inversion H; subst. repeat split; [|set_solver]. exists []. by rewrite app_nil_r.
  - destruct (load_step sys e a m) as [[e1 a1] t1] eqn:E1.
    destruct (load_modules sys ms e1 a1) as [[e2 a2] t2] eqn:E2.
    inversion H; subst.
    destruct (load_step_fields _ _ _ _ _ _ E1) as (? & ? & ? & ? & [cs1 Hc1] & Hp1).
    destruct (IH _ _ _ _ _ E2) as (? & ? & ? & ? & [cs2 Hc2] & Hp2).
    repeat split; try congruence; [|set_solver].
    exists (cs1 ++ cs2). by rewrite Hc2, Hc1, app_assoc.
Qed.

Lemma load_modules_preloaded (ms : list string) (e : Environment) (a : Ambient) e' a' t m :
  load_modules sys ms e a = (e', a', t) ->
  ReqIsLoaded m true ∈ t -> m ∈ preloaded e'.
Proof.
  revert e a e' a' t. induction ms as [|m0 ms IH]; intros e a e' a' t H Hin;
    simpl in H.
  - inversion H; subst. set_solver.
  - destruct (load_step sys e a m0) as [[e1 a1] t1] eqn:E1.
    destruct (load_modules sys ms e1 a1) as [[e2 a2] t2] eqn:E2.
    inversion H; subst.
    apply elem_of_app in Hin as [Hin|Hin]; [|by eapply IH].
    destruct (load_modules_fields _ _ _ _ _ _ E2) as (_ & _ & _ & _ & _ & Hp2).
    apply Hp2. unfold load_step in E1.
    destruct (is_module_loaded (amb_mods a) m0) eqn:Eb;
      destruct (load_module sys true m0 a) as [cs a''];
      inversion E1; subst; simpl.
    + apply elem_of_cons in Hin as [Hin|Hin]; [inversion Hin; subst; set_solver|].
      apply elem_of_cons in Hin as [Hin|Hin]; [discriminate|set_solver].
    + apply elem_of_cons in Hin as [Hin|Hin]; [discriminate|].
      apply elem_of_cons in Hin as [Hin|Hin]; [discriminate|set_solver].
Qed.

(** The variable loops. *)
Lemma load_variables_app (vs1 vs2 : list (string * string)) (s en : gmap string string) :
  load_variables (vs1 ++ vs2) s en =
  let '(s1, en1) := load_variables vs1 s en in load_variables vs2 s1 en1.
Proof.
  revert s en. induction vs1 as [|[k v] vs1 IH]; intros s en; simpl; [done|].
  apply IH.
Qed.

Lemma load_variables_notin (vs : list (string * string)) (s en : gmap string string) k :
  k ∉ map fst vs ->
  (load_variables vs s en).1 !! k = s !! k ∧ (load_variables vs s en).2 !! k = en !! k.
Proof.
  revert s en. induction vs as [|[k' v] vs IH]; intros s en Hk; simpl; [done|].
  simpl in Hk. apply not_elem_of_cons in Hk as [Hne Hk].
  destruct (IH (match en !! k' with Some old => <[k':=old]> s | None => s end)
               (<[k':=expandvars en v]> en) Hk) as [H1 H2].
  rewrite H1, H2, lookup_insert_ne by congruence.
  split; [|done]. destruct (en !! k'); [|done]. by rewrite lookup_insert_ne.
Qed.

Lemma restore_variables_app (vs1 vs2 : list (string * string)) (sv en : gmap string string) :
  restore_variables (vs1 ++ vs2) sv en = restore_variables vs2 sv (restore_variables vs1 sv en).
Proof.
  revert en. induction vs1 as [|[k v] vs1 IH]; intros en; simpl; [done|]. apply IH.
Qed.

Lemma restore_variables_notin (vs : list (string * string)) (sv en : gmap string string) k :
  k ∉ map fst vs -> restore_variables vs sv en !! k = en !! k.
Proof.
  revert en. induction vs as [|[k' v] vs IH]; intros en Hk; simpl; [done|].
  simpl in Hk. apply not_elem_of_cons in Hk as [Hne Hk].
  rewrite IH by done.
  destruct (sv !! k'); [by rewrite lookup_insert_ne|].
  destruct (en !! k'); [by rewrite lookup_delete_ne|done].
Qed.

Lemma restore_variables_at (vs : list (string * string)) (sv en : gmap string string) k :
  NoDup (map fst vs) -> k ∈ map fst vs -> restore_variables vs sv en !! k = sv !! k.
Proof.
  revert en. induction vs as [|[k' v] vs IH]; intros en Hnd Hk; simpl; [set_solver|].
  simpl in Hnd, Hk. inversion Hnd as [|? ? Hk' Hnd']; subst.
  apply elem_of_cons in Hk as [->|Hk].
  - rewrite restore_variables_notin by done.
    destruct (sv !! k') eqn:Es; [by rewrite lookup_insert_eq|].
    destruct (en !! k') eqn:Ee; [by rewrite lookup_delete_eq|done].
  - by apply IH.
Qed.

(** The loaded modules after one request. *)
Lemma unload_module_mem (m : string) (a : Ambient) x :
  x ∈ amb_mods (unload_module sys m a) <-> x ∈ amb_mods a ∧ x ≠ m.
Proof.
  unfold unload_module, is_module_loaded. case_bool_decide; cbn [amb_mods]; set_solver.
Qed.

Lemma load_module_mem (force : bool) (m : string) (a : Ambient) x :
  x ∈ amb_mods (load_module sys force m a).2 <->
  x = m ∨ (x ∈ amb_mods a ∧ (m ∈ amb_mods a ∨ conflicting sys m x = false)).
Proof.
  unfold load_module, is_module_loaded. case_bool_decide as Hm; cbn [snd amb_mods].
  - naive_solver.
  - rewrite elem_of_app, list_elem_of_filter, list_elem_of_filter, list_elem_of_singleton.
    destruct (conflicting sys m x); naive_solver.
Qed.

(** The module loops of unload. *)
Lemma unload_modules_mem (ms : list string) (pl : gset string) (a : Ambient) x :
  x ∈ amb_mods (unload_modules sys ms pl a).1 <-> x ∈ amb_mods a ∧ ¬ (x ∈ ms ∧ x ∉ pl).
Proof.
  revert a. induction ms as [|m ms IH]; intros a; simpl; [set_solver|].
  case_bool_decide.
  - rewrite IH. set_solver.
  - pose proof (IH (unload_module sys m a)) as IH'.
    destruct (unload_modules sys ms pl (unload_module sys m a)) as [a' t].
    simpl in *. rewrite IH', unload_module_mem. set_solver.
Qed.

Lemma unload_modules_requests (ms : list string) (pl : gset string) (a : Ambient) m :
  ReqUnload m ∈ (unload_modules sys ms pl a).2 -> m ∉ pl.
Proof.
  revert a. induction ms as [|m0 ms IH]; intros a; simpl; [set_solver|].
  case_bool_decide; [apply IH|].
  pose proof (IH (unload_module sys m0 a)) as IH'.
  destruct (unload_modules sys ms pl (unload_module sys m0 a)) as [a' t].
  simpl in *. intros Hin. apply elem_of_cons in Hin as [Heq|Hin].
  - injection Heq as ->. done.
  - by apply IH'.
Qed.

(** Reloading the conflicted modules loads nothing else. *)
Lemma reload_modules_sub (ms : list string) (a : Ambient) x :
  x ∈ amb_mods (reload_modules sys ms a).1 -> x ∈ amb_mods a ∨ x ∈ ms.
Proof.
  revert a. induction ms as [|m ms IH]; intros a; simpl; [auto|].
  pose proof (load_module_mem false m a x) as Hl.
  destruct (load_module sys false m a) as [cs a1].
  pose proof (IH a1) as IH'.
  destruct (reload_modules sys ms a1) as [a2 t].
  simpl in *. intros Hx. destruct (IH' Hx) as [Hx'|Hx']; [|set_solver].
  apply Hl in Hx'. set_solver.
Qed.

(** A module that is loaded, or reloaded, stays loaded unless a module
    reloaded later conflicts with it. *)
Lemma reload_modules_loaded (ms : list string) (a : Ambient) y :
  y ∈ amb_mods a ∨ y ∈ ms ->
  (∀ c, c ∈ ms -> c ≠ y -> conflicting sys c y = false) ->
  y ∈ amb_mods (reload_modules sys ms a).1.
Proof.
  revert a. induction ms as [|m ms IH]; intros a Hy Hc; simpl.
  - destruct Hy as [Hy|Hy]; [done|by apply elem_of_nil in Hy].
  - pose proof (load_module_mem false m a y) as Hl.
    destruct (load_module sys false m a) as [cs a1].
    pose proof (IH a1) as IH'.
    destruct (reload_modules sys ms a1) as [a2 t].
    simpl in *. apply IH'; [|intros c Hc'; apply Hc; set_solver].
    destruct (decide (y = m)) as [->|Hne]; [left; apply Hl; by left|].
    destruct Hy as [Hy|Hy]; [|apply elem_of_cons in Hy as [Hy|Hy]; [done|by right]].
    left. apply Hl. right. split; [done|]. right. apply Hc; set_solver.
Qed.

Lemma reload_modules_requests (ms : list string) (a : Ambient) m :
  ReqUnload m ∉ (reload_modules sys ms a).2.
Proof.
  revert a. induction ms as [|m0 ms IH]; intros a; simpl; [set_solver|].
  destruct (load_module sys false m0 a) as [cs a1].
  pose proof (IH a1) as IH'.
  destruct (reload_modules sys ms a1) as [a2 t].
  simpl in *. intros Hin. apply elem_of_cons in Hin as [Heq|Hin]; [discriminate|done].
Qed.

(** A variable that no module load or unload changes is left as it is by
    every request to the module system. *)
Section Keeps.

Variable k : string.
Hypothesis Hk : module_keeps sys k.

Lemma unload_env_fold_keeps (cs : list string) (environ : gmap string string) :
  fold_left (fun env c => module_unload_env sys c env) cs environ !! k = environ !! k.
Proof.
  revert environ. induction cs as [|c cs IH]; intros environ; simpl; [done|].
  rewrite IH. apply Hk.
Qed.

Lemma load_module_keeps (force : bool) (m : string) (a : Ambient) :
  amb_env (load_module sys force m a).2 !! k = amb_env a !! k.
Proof.
  unfold load_module. destruct (is_module_loaded (amb_mods a) m); [done|].
  cbn [snd amb_env]. rewrite (proj1 (Hk _ _)). apply unload_env_fold_keeps.
Qed.

Lemma unload_module_keeps (m : string) (a : Ambient) :
  amb_env (unload_module sys m a) !! k = amb_env a !! k.
Proof.
  unfold unload_module. destruct (is_module_loaded (amb_mods a) m); [|done].
  apply Hk.
Qed.

Lemma load_modules_keeps (ms : list string) (e : Environment) (a : Ambient) e' a' t :
  load_modules sys ms e a = (e', a', t) -> amb_env a' !! k = amb_env a !! k.
Proof.
  revert e a e' a' t. induction ms as [|m ms IH]; intros e a e' a' t H; simpl in H.
  - by inversion H.
  - destruct (load_step sys e a m) as [[e1 a1] t1] eqn:E1.
    destruct (load_modules sys ms e1 a1) as [[e2 a2] t2] eqn:E2.
    inversion H; subst. rewrite (IH _ _ _ _ _ E2).
    unfold load_step in E1.
    pose proof (load_module_keeps true m a) as Hm.
    destruct (load_module sys true m a) as [cs a''].
    injection E1 as _ <- _. exact Hm.
Qed.

Lemma unload_modules_keeps (ms : list string) (pl : gset string) (a : Ambient) :
  amb_env (unload_modules sys ms pl a).1 !! k = amb_env a !! k.
Proof.
  revert a. induction ms as [|m ms IH]; intros a; simpl; [done|].
  case_bool_decide; [apply IH|].
  pose proof (IH (unload_module sys m a)) as IH'.
  destruct (unload_modules sys ms pl (unload_module sys m a)) as [a' t].
  simpl in *. rewrite IH'. apply unload_module_keeps.
Qed.

Lemma reload_modules_keeps (ms : list string) (a : Ambient) :
  amb_env (reload_modules sys ms a).1 !! k = amb_env a !! k.
Proof.
  revert a. induction ms as [|m ms IH]; intros a; simpl; [done|].
  pose proof (load_module_keeps false m a) as Hl.
  destruct (load_module sys false m a) as [cs a1].
  pose proof (IH a1) as IH'.
  destruct (reload_modules sys ms a1) as [a2 t].
  simpl in *. by rewrite IH', Hl.
Qed.

End Keeps.

(** [load] and [unload] on the ambient state. *)
Lemma load_ambient (e : Environment) (a : Ambient) :
  let a0 := (load_modules sys (modules e) e a).1.2 in
  (load sys e a).1.2 =
    mkAmbient (load_variables (variables e) (saved_variables e) (amb_env a0)).2
              (amb_mods a0) ∧
  saved_variables (load sys e a).1.1 =
    (load_variables (variables e) (saved_variables e) (amb_env a0)).1.
Proof.
  unfold load.
  destruct (load_modules sys (modules e) e a) as [[e0 a0] t0] eqn:Em.
  destruct (load_modules_fields _ _ _ _ _ _ Em) as (_ & _ & Hv0 & Hs0 & _ & _).
  cbn [fst snd]. rewrite Hv0, Hs0.
  destruct (load_variables (variables e) (saved_variables e) (amb_env a0)) as [s en].
  done.
Qed.

Lemma unload_ambient (e : Environment) (a : Ambient) :
  loaded e = true ->
  (unload sys e a).1.2 =
    (reload_modules sys (conflicted e)
       (unload_modules sys (rev (modules e)) (preloaded e)
          (mkAmbient (restore_variables (variables e) (saved_variables e) (amb_env a))
                     (amb_mods a))).1).1.
Proof.
  intros Hl. unfold unload. rewrite Hl. cbn [negb].
  destruct (unload_modules sys _ _ _) as [a1 t1]. cbn [fst].
  destruct (reload_modules sys (conflicted e) a1) as [a2 t2]. reflexivity.
Qed.

Lemma unload_env_keeps (e : Environment) (a : Ambient) k :
  module_keeps sys k -> loaded e = true ->
  amb_env (unload sys e a).1.2 !! k =
    restore_variables (variables e) (saved_variables e) (amb_env a) !! k.
Proof.
  intros Hk Hl. rewrite unload_ambient by done.
  rewrite reload_modules_keeps, unload_modules_keeps by done. reflexivity.
Qed.

End LoadUnload.

(** ** Variable shadow and restore *)

(** C3 (amended): when [X=old] is set in [os.environ], the Environment
    declares [X=new] and no module load or unload changes [X], [load()]
    sets [X] to [new] expanded against [os.environ] as it is when [X] is
    set (after the module loop and the variables declared before [X]), and
    the matching [unload()] sets [X] back to [old]. *)
Theorem variable_shadow_restore (sys : ModulesSystem)
    (e : Environment) (a : Ambient) (X new old : string)
    (pre post : list (string * string)) e1 a1 t1 e2 a2 t2 :
  variables e = pre ++ (X, new) :: post ->
  X ∉ map fst pre -> X ∉ map fst post ->
  module_keeps sys X ->
  amb_env a !! X = Some old ->
  load sys e a = (e1, a1, t1) ->
  unload sys e1 a1 = (e2, a2, t2) ->
  amb_env a1 !! X =
    Some (expandvars (load_variables pre (saved_variables e)
                        (amb_env (load_modules sys (modules e) e a).1.2)).2 new) ∧
  amb_env a2 !! X = Some old.
Proof.
  intros Hvs Hpre Hpost Hk Hold Hl Hu.
  assert (Ha2 : a2 = (unload sys e1 a1).1.2) by (by rewrite Hu). clear Hu. subst a2.
  unfold load in Hl.
  destruct (load_modules sys (modules e) e a) as [[e0 a0] t0] eqn:Em. cbn [fst snd].
  destruct (load_modules_fields sys _ _ _ _ _ _ Em) as (_ & _ & Hv0 & Hs0 & _ & _).
  pose proof (load_modules_keeps sys X Hk _ _ _ _ _ _ Em) as Hold0.
  rewrite Hold in Hold0.
  rewrite Hv0, Hs0, Hvs, load_variables_app in Hl.
  destruct (load_variables_notin pre (saved_variables e) (amb_env a0) X Hpre) as [_ Hen1].
  destruct (load_variables pre (saved_variables e) (amb_env a0)) as [s1 en1] eqn:E1.
  cbn [snd] in Hen1 |- *. rewrite Hold0 in Hen1.
  cbn [load_variables] in Hl. rewrite Hen1 in Hl.
  destruct (load_variables_notin post (<[X:=old]> s1) (<[X:=expandvars en1 new]> en1) X Hpost)
    as [Hs2 Hen2].
  destruct (load_variables post (<[X:=old]> s1) (<[X:=expandvars en1 new]> en1))
    as [s2 en2] eqn:E2.
  cbn [fst snd] in Hs2, Hen2.
  injection Hl as <- <- _. cbn [amb_env].
  split.
  - rewrite Hen2. apply lookup_insert_eq.
  - rewrite unload_env_keeps by done. cbn [variables saved_variables amb_env].
    rewrite restore_variables_app. cbn [restore_variables].
    rewrite restore_variables_notin by done.
    rewrite Hs2, !lookup_insert_eq. done.
Qed.

(** ** Preloaded modules *)

(** C5: a declared module that the module system reports as loaded when
    [load()] examines it is never the object of an unload request of the
    matching [unload()]. *)
Theorem preloaded_module_never_unloaded (sys : ModulesSystem)
    (e : Environment) (a : Ambient) (m : string) e1 a1 t1 e2 a2 t2 :
  load sys e a = (e1, a1, t1) ->
  ReqIsLoaded m true ∈ t1 ->
  unload sys e1 a1 = (e2, a2, t2) ->
  ReqUnload m ∉ t2.
Proof.
  intros Hl Hq Hu. unfold load in Hl.
  destruct (load_modules sys (modules e) e a) as [[e0 a0] t0] eqn:Em.
  destruct (load_variables (variables e0) (saved_variables e0) (amb_env a0)) as [s en].
  inversion Hl; subst; clear Hl.
  pose proof (load_modules_preloaded sys _ _ _ _ _ _ m Em Hq) as Hp.
  unfold unload in Hu.
  cbn [loaded negb modules preloaded conflicted variables saved_variables
       amb_mods amb_env] in Hu.
  match type of Hu with
  | (let '(_, _) := unload_modules sys ?ms ?pl ?a3 in _) = _ =>
      pose proof (unload_modules_requests sys ms pl a3 m) as Hu1;
      destruct (unload_modules sys ms pl a3) as [a4 u1]
  end.
  pose proof (reload_modules_requests sys (conflicted e0) a4 m) as Hu2.
  destruct (reload_modules sys (conflicted e0) a4) as [a5 u2].
  inversion Hu; subst; clear Hu. cbn [fst snd] in *.
  intros Hin. apply elem_of_app in Hin as [Hin|Hin]; [|done].
  apply Hu1 in Hin. contradiction.
Qed.

(** ** Load and unload as a round trip *)

Section RoundTrip.

Variable sys : ModulesSystem.

Lemma load_variables_at (vs : list (string * string)) (s en : gmap string string) k :
  NoDup (map fst vs) -> k ∈ map fst vs ->
  (load_variables vs s en).1 !! k =
    match en !! k with Some o => Some o | None => s !! k end.
Proof.
  revert s en. induction vs as [|[k' v] vs IH]; intros s en Hnd Hk; [set_solver|].
  simpl in Hnd, Hk. inversion Hnd as [|? ? Hk' Hnd']; subst. cbn [load_variables].
  apply elem_of_cons in Hk as [->|Hk].
  - rewrite (proj1 (load_variables_notin _ _ _ _ Hk')).
    destruct (en !! k'); [apply lookup_insert_eq|done].
  - assert (Hne : k ≠ k') by (intros ->; contradiction).
    rewrite IH by done. rewrite lookup_insert_ne by congruence.
    destruct (en !! k) eqn:Ek; [done|].
    destruct (en !! k'); [by rewrite lookup_insert_ne by congruence|done].
Qed.

(** For a fresh Environment with distinct variable names, restoring after
    setting gives back [os.environ]. *)
Lemma load_restore_variables (vs : list (string * string)) (en : gmap string string) :
  NoDup (map fst vs) ->
  restore_variables vs (load_variables vs ∅ en).1 (load_variables vs ∅ en).2 = en.
Proof.
  intros Hnd. apply map_eq. intros k.
  destruct (decide (k ∈ map fst vs)) as [Hk|Hk].
  - rewrite restore_variables_at, load_variables_at by done.
    destruct (en !! k); [done|]. apply lookup_empty.
  - rewrite restore_variables_notin by done.
    apply (load_variables_notin _ _ _ _ Hk).
Qed.

(** The invariant of the module loop of [load], after the prefix [P] of
    the declared modules has been processed, for the initial module list
    [S]. *)
Lemma load_modules_inv (S : list string) (R P : list string) (e : Environment)
    (a : Ambient) e' a' t :
  (∀ x, x ∈ amb_mods a <-> (x ∈ S ∧ x ∉ conflicted e) ∨ x ∈ P) ->
  (∀ x, x ∈ conflicted e -> x ∈ S) ->
  (∀ x, x ∈ preloaded e -> x ∈ P) ->
  (∀ x, x ∈ P -> (x ∈ preloaded e <-> x ∈ S)) ->
  NoDup (P ++ R) ->
  load_modules sys R e a = (e', a', t) ->
  (∀ x, x ∈ conflicted e' -> x ∉ P ++ R) ->
  (∀ x, x ∈ amb_mods a' <-> (x ∈ S ∧ x ∉ conflicted e') ∨ x ∈ P ++ R) ∧
  (∀ x, x ∈ conflicted e' -> x ∈ S) ∧
  (∀ x, x ∈ P ++ R -> (x ∈ preloaded e' <-> x ∈ S)).
Proof.
  revert P e a e' a' t.
  induction R as [|m R IH]; intros P e a e' a' t Hst HC Hpl Hpl' Hnd Hl Hfin.
  - simpl in Hl. inversion Hl; subst. rewrite app_nil_r. auto.
  - cbn [load_modules] in Hl.
    destruct (load_step sys e a m) as [[e1 a1] t1] eqn:E1.
    destruct (load_modules sys R e1 a1) as [[e2 a2] t2] eqn:E2.
    inversion Hl; subst; clear Hl.
    destruct (load_modules_fields sys _ _ _ _ _ _ E2) as (_ & _ & _ & _ & [cs2 Hc2] & _).
    assert (HmP : m ∉ P).
    { intros Hm. apply NoDup_app in Hnd as (_ & Hd & _). apply (Hd m Hm). set_solver. }
    assert (Hfin1 : ∀ x, x ∈ conflicted e1 -> x ∉ P ++ m :: R).
    { intros x Hx. apply Hfin. rewrite Hc2. set_solver. }
    assert (Hinv1 :
      (∀ x, x ∈ amb_mods a1 <-> (x ∈ S ∧ x ∉ conflicted e1) ∨ x ∈ P ++ [m]) ∧
      (∀ x, x ∈ conflicted e1 -> x ∈ S) ∧
      (∀ x, x ∈ preloaded e1 -> x ∈ P ++ [m]) ∧
      (∀ x, x ∈ P ++ [m] -> (x ∈ preloaded e1 <-> x ∈ S))).
    { unfold load_step, load_module, is_module_loaded in E1.
      assert (HmC : m ∉ conflicted e1) by (intros Hm; apply (Hfin1 m Hm); set_solver).
      case_bool_decide as Hmst.
      - inversion E1; subst; clear E1. cbn [conflicted preloaded] in *.
        rewrite app_nil_r in *.
        assert (HmS : m ∈ S) by (apply Hst in Hmst; set_solver).
        split; [|split; [|split]].
        + intros x. rewrite Hst. set_solver.
        + done.
        + intros x Hx. apply elem_of_union in Hx as [Hx|Hx]; set_solver.
        + intros x Hx. apply elem_of_app in Hx as [Hx|Hx].
          * assert (x ≠ m) by (intros ->; contradiction).
            rewrite elem_of_union, elem_of_singleton. rewrite <- Hpl' by done.
            naive_solver.
          * apply list_elem_of_singleton in Hx as ->. set_solver.
      - set (cs := filter (λ x, conflicting sys m x = true) (amb_mods a)) in *.
        inversion E1; subst; clear E1. cbn [conflicted preloaded amb_mods] in *.
        assert (Hcs : ∀ x, x ∈ cs -> x ∈ amb_mods a ∧ x ∉ P ++ m :: R).
        { intros x Hx. split.
          - unfold cs in Hx. by apply list_elem_of_filter in Hx as [_ Hx].
          - apply Hfin1. set_solver. }
        assert (HmS : m ∉ S) by (intros HmS; apply Hmst, Hst; set_solver).
        split; [|split; [|split]].
        + intros x. rewrite elem_of_app, list_elem_of_filter, Hst.
          split.
          * intros [[Hxcs Hx]|Hx]; [|set_solver].
            destruct Hx as [[HxS HxC]|HxP]; [|set_solver].
            left. split; [done|]. rewrite elem_of_app. tauto.
          * intros [[HxS HxC]|Hx].
            -- left. rewrite elem_of_app in HxC. split; [tauto|]. left. tauto.
            -- apply elem_of_app in Hx as [HxP|Hxm]; [|set_solver].
               left. split; [|by right].
               intros Hxc. destruct (Hcs x Hxc) as [_ Hn]. set_solver.
        + intros x Hx. apply elem_of_app in Hx as [Hx|Hx]; [by apply HC|].
          destruct (Hcs x Hx) as [Hxst Hn]. apply Hst in Hxst. set_solver.
        + intros x Hx. apply Hpl in Hx. set_solver.
        + intros x Hx. apply elem_of_app in Hx as [Hx|Hx]; [by apply Hpl'|].
          apply list_elem_of_singleton in Hx as ->.
          split; [intros Hm; apply Hpl in Hm; contradiction|done]. }
    destruct Hinv1 as (Hst1 & HC1 & Hpl1 & Hpl1').
    assert (Hnd' : NoDup ((P ++ [m]) ++ R)) by (by rewrite <- app_assoc).
    assert (Hfin' : ∀ x, x ∈ conflicted e' -> x ∉ (P ++ [m]) ++ R).
    { intros x Hx. rewrite <- app_assoc. by apply Hfin. }
    destruct (IH (P ++ [m]) e1 a1 e' a' t2 Hst1 HC1 Hpl1 Hpl1' Hnd' E2 Hfin')
      as (H1 & H2 & H3).
    rewrite <- app_assoc in H1, H3. simpl in H1, H3. auto.
Qed.

End RoundTrip.

#[global] Instance module_op_eq_dec : EqDecision module_op.
Proof. solve_decision. Defined.
#[global] Instance request_eq_dec : EqDecision request.
Proof. solve_decision. Defined.

Lemma example_system_keeps (ps : list (string * string))
    (vs : list (string * (string * string))) (k : string) :
  k ∉ map (fun p => p.2.1) vs -> module_keeps (example_system ps vs) k.
Proof.
  intros Hk m environ. cbn [module_load_env module_unload_env example_system].
  revert environ. induction vs as [|[m' [k' v]] vs IH]; intros environ; [done|].
  cbn [map fst snd] in Hk. apply not_elem_of_cons in Hk as [Hne Hk].
  cbn [fold_left]. rewrite !(proj1 (IH Hk _)), !(proj2 (IH Hk _)).
  case_bool_decide; [|done].
  rewrite lookup_insert_ne, lookup_delete_ne by congruence. done.
Qed.

(** C1 (counterexample): module [gcc] sets [CC=gcc] when loaded and
    unsets it when unloaded; [CC=cc] is set and the Environment declares
    [gcc] and [CC=gcc].  [load()] saves the value set by the module, the
    module is unloaded after the variables are restored, and [CC] ends up
    unset. *)
Lemma load_unload_module_variable_cex :
  let sys := example_system [] [("gcc", ("CC", "gcc"))] in
  let e := Environment_new "gcc-env" ["gcc"] [("CC", "gcc")] in
  let a := mkAmbient (<["CC":="cc"]> ∅) [] in
  let r1 := load sys e a in
  let r2 := unload sys r1.1.1 r1.1.2 in
  amb_env a !! "CC" = Some "cc" ∧ saved_variables r1.1.1 !! "CC" = Some "gcc" ∧
  amb_env r2.1.2 !! "CC" = None ∧ amb_mods r2.1.2 = amb_mods a.
Proof. vm_compute. repeat split; reflexivity. Qed.

(** A fresh Environment declaring module ["a"] twice: the second
    occurrence finds ["a"] loaded and records it as preloaded, so
    [unload()] leaves it loaded. *)
Lemma load_unload_duplicate_module :
  let sys := example_system [] [] in
  let e := Environment_new "e" ["a"; "a"] [] in
  let a := mkAmbient ∅ [] in
  let r1 := load sys e a in
  let r2 := unload sys r1.1.1 r1.1.2 in
  amb_mods a = [] ∧ amb_mods r2.1.2 = ["a"] ∧ amb_env r2.1.2 = amb_env a.
Proof. vm_compute. repeat split; reflexivity. Qed.

(** C1 (amended): for an Environment as constructed (no earlier
    activation), whose declared modules are pairwise distinct, such that
    no module force-unloaded during [load()] is one of its declared
    modules, and started with no two conflicting modules loaded,
    [load()] followed by [unload()] gives back the same set of loaded
    modules and the value of every variable of [os.environ] that no module
    load or unload changes. *)
Theorem load_unload_roundtrip (sys : ModulesSystem) (nm : string)
    (ms : list string) (vs : list (string * string)) (a : Ambient)
    e1 a1 t1 e2 a2 t2 :
  NoDup ms ->
  (∀ x y, x ∈ amb_mods a -> y ∈ amb_mods a -> x ≠ y -> conflicting sys x y = false) ->
  load sys (Environment_new nm ms vs) a = (e1, a1, t1) ->
  (∀ x, x ∈ conflicted e1 -> x ∉ ms) ->
  unload sys e1 a1 = (e2, a2, t2) ->
  (∀ k, module_keeps sys k -> amb_env a2 !! k = amb_env a !! k) ∧
  (∀ x, x ∈ amb_mods a2 <-> x ∈ amb_mods a).
Proof.
  intros Hnd Hcf Hl Hfin Hu.
  assert (Ha2 : a2 = (unload sys e1 a1).1.2) by (by rewrite Hu). clear Hu. subst a2.
  set (e := Environment_new nm ms vs) in Hl.
  unfold load in Hl.
  destruct (load_modules sys (modules e) e a) as [[e0 a0] t0] eqn:Em.
  destruct (load_modules_fields sys _ _ _ _ _ _ Em) as (_ & Hm0 & Hv0 & Hs0 & _ & _).
  destruct (load_variables (variables e0) (saved_variables e0) (amb_env a0)) as [s en] eqn:Ev.
  injection Hl as <- <- _. cbn [conflicted] in Hfin.
  destruct (load_modules_inv sys (amb_mods a) (modules e) [] e a e0 a0 t0)
    as (Hst0 & HC0 & Hpl0).
  { intros x. cbn [conflicted e Environment_new]. set_solver. }
  { intros x. cbn [conflicted e Environment_new]. set_solver. }
  { intros x. cbn [preloaded e Environment_new]. set_solver. }
  { intros x Hx. set_solver. }
  { exact Hnd. }
  { exact Em. }
  { exact Hfin. }
  split.
  - intros k Hk. rewrite unload_env_keeps by done.
    cbn [variables saved_variables amb_env].
    rewrite Hv0, Hs0 in Ev. cbn [e Environment_new variables saved_variables] in Ev.
    pose proof (load_restore_variables (OrderedDict vs) (amb_env a0) (OrderedDict_NoDup vs))
      as Hr.
    rewrite Ev in Hr. cbn [fst snd] in Hr. rewrite Hv0. cbn [e Environment_new variables].
    rewrite Hr. apply (load_modules_keeps sys k Hk _ _ _ _ _ _ Em).
  - rewrite unload_ambient by done.
    cbn [modules preloaded conflicted variables saved_variables amb_mods amb_env].
    rewrite Hm0. cbn [e Environment_new modules].
    match goal with
    | |- context [unload_modules sys (rev ms) (preloaded e0) ?a3] => set (a4 := a3)
    end.
    assert (H3 : ∀ x, x ∈ amb_mods (unload_modules sys (rev ms) (preloaded e0) a4).1 <->
                      x ∈ amb_mods a ∧ x ∉ conflicted e0).
    { intros x. rewrite unload_modules_mem. cbn [a4 amb_mods]. rewrite Hst0.
      assert (Hrev : x ∈ rev ms <-> x ∈ ms).
      { rewrite !list_elem_of_In. symmetry. apply in_rev. }
      rewrite Hrev. cbn [app e Environment_new modules] in *.
      specialize (Hpl0 x). specialize (HC0 x). specialize (Hfin x).
      destruct (decide (x ∈ ms)); destruct (decide (x ∈ amb_mods a));
        destruct (decide (x ∈ conflicted e0)); naive_solver. }
    intros x. split.
    + intros Hx. apply reload_modules_sub in Hx as [Hx|Hx]; [apply H3 in Hx; tauto|].
      by apply HC0.
    + intros Hx. apply reload_modules_loaded.
      * destruct (decide (x ∈ conflicted e0)); [by right|]. left. by apply H3.
      * intros c Hc Hne. apply Hcf; [by apply HC0|done|done].
Qed.

(** Witness of [load_unload_roundtrip]: loading [gcc], which sets [PATH],
    forces [intel] out; the round trip gives back the loaded modules and
    the variables that no module changes. *)
Lemma load_unload_roundtrip_witness :
  let sys := example_system [("gcc", "intel")] [("gcc", ("PATH", "/opt/gcc/bin"))] in
  let a := mkAmbient (<["CC":="icc"]> ∅) ["intel"] in
  let r1 := load sys (Environment_new "gcc-env" ["gcc"] [("CC", "gcc")]) a in
  let r2 := unload sys r1.1.1 r1.1.2 in
  conflicted r1.1.1 = ["intel"] ∧
  (∀ k, module_keeps sys k -> amb_env r2.1.2 !! k = amb_env a !! k) ∧
  (∀ x, x ∈ amb_mods r2.1.2 <-> x ∈ amb_mods a).
Proof.
  intros sys a r1 r2.
  assert (Hc : conflicted r1.1.1 = ["intel"]) by (vm_compute; reflexivity).
  split; [exact Hc|].
  apply (load_unload_roundtrip sys "gcc-env" ["gcc"] [("CC", "gcc")] a
           r1.1.1 r1.1.2 r1.2 r2.1.1 r2.1.2 r2.2).
  - apply NoDup_singleton.
  - intros x y Hx Hy Hne. apply list_elem_of_singleton in Hx, Hy. congruence.
  - reflexivity.
  - rewrite Hc. set_solver.
  - reflexivity.
Defined.

(** C3 (counterexample): module [python] sets [PYTHONPATH] when loaded
    and unsets it when unloaded; [PYTHONPATH=/usr/lib] is set and the
    Environment declares [python] and [PYTHONPATH=/home/u/lib].  After the
    matching [unload()], [PYTHONPATH] is unset. *)
Lemma variable_shadow_module_cex :
  let sys := example_system [] [("python", ("PYTHONPATH", "/opt/python/lib"))] in
  let e := Environment_new "py-env" ["python"] [("PYTHONPATH", "/home/u/lib")] in
  let a := mkAmbient (<["PYTHONPATH":="/usr/lib"]> ∅) [] in
  let r1 := load sys e a in
  let r2 := unload sys r1.1.1 r1.1.2 in
  amb_env r1.1.2 !! "PYTHONPATH" = Some "/home/u/lib" ∧
  amb_env r2.1.2 !! "PYTHONPATH" = None.
Proof. vm_compute. split; reflexivity. Qed.

(** Witness of [variable_shadow_restore]: [CC=icc] in [os.environ], the
    Environment declares [CC=gcc] and its module sets [PATH]. *)
Lemma variable_shadow_restore_witness :
  let sys := example_system [] [("gcc/7.3.0", ("PATH", "/opt/gcc/bin"))] in
  let e := Environment_new "gcc-env" ["gcc/7.3.0"] [("CC", "gcc")] in
  let a := mkAmbient (<["CC":="icc"]> ∅) [] in
  let r1 := load sys e a in
  let r2 := unload sys r1.1.1 r1.1.2 in
  amb_env r1.1.2 !! "CC" =
    Some (expandvars (load_variables [] (saved_variables e)
                        (amb_env (load_modules sys (modules e) e a).1.2)).2 "gcc") ∧
  amb_env r2.1.2 !! "CC" = Some "icc".
Proof.
  intros sys e a r1 r2.
  apply (variable_shadow_restore sys e a "CC" "gcc" "icc" [] []
           r1.1.1 r1.1.2 r1.2 r2.1.1 r2.1.2 r2.2).
  - reflexivity.
  - apply not_elem_of_nil.
  - apply not_elem_of_nil.
  - apply example_system_keeps. cbn.
    apply not_elem_of_cons. split; [discriminate|apply not_elem_of_nil].
  - reflexivity.
  - reflexivity.
  - reflexivity.
Defined.

(** Witness of [preloaded_module_never_unloaded]: [gcc] is loaded before
    [load()]. *)
Lemma preloaded_module_never_unloaded_witness :
  let sys := example_system [] [] in
  let e := Environment_new "gcc-env" ["gcc"] [] in
  let a := mkAmbient ∅ ["gcc"] in
  let r1 := load sys e a in
  let r2 := unload sys r1.1.1 r1.1.2 in
  ReqIsLoaded "gcc" true ∈ r1.2 ∧ ReqUnload "gcc" ∉ r2.2.
Proof.
  intros sys e a r1 r2.
  assert (Ht : r1.2 = [ReqIsLoaded "gcc" true; ReqLoad true "gcc" []])
    by (vm_compute; reflexivity).
  assert (Hq : ReqIsLoaded "gcc" true ∈ r1.2) by (rewrite Ht; set_solver).
  split; [exact Hq|].
  apply (preloaded_module_never_unloaded sys e a "gcc"
           r1.1.1 r1.1.2 r1.2 r2.1.1 r2.1.2 r2.2).
  - reflexivity.
  - exact Hq.
  - reflexivity.
Defined.

(** ** Conflict restore *)

(** C4 (counterexample): [A'] conflicts with the loaded [A], and [B] with
    [A']; the Environment declares [A'] then [B].  Loading [A'] forces [A]
    out (so [A] is not preloaded) and loading [B] forces [A'] out, so the
    conflicted list is [A; A'].  [unload()] unloads [B], reloads [A], and
    reloading [A'] swaps [A] out again. *)
Lemma conflict_restore_reload_cex :
  let sys := example_system [("A'", "A"); ("B", "A'")] [] in
  let e := Environment_new "e" ["A'"; "B"] [] in
  let a := mkAmbient ∅ ["A"] in
  let r1 := load sys e a in
  let r2 := unload sys r1.1.1 r1.1.2 in
  (ReqLoad true "A'" ["A"] ∈ r1.2) ∧ ("A" ∉ preloaded r1.1.1) ∧
  conflicted r1.1.1 = ["A"; "A'"] ∧ amb_mods r2.1.2 = ["A'"].
Proof.
  intros sys e a r1 r2.
  assert (Ht : r1.2 = [ReqIsLoaded "A'" false; ReqLoad true "A'" ["A"];
                       ReqIsLoaded "B" false; ReqLoad true "B" ["A'"]])
    by (vm_compute; reflexivity).
  assert (Hp : preloaded r1.1.1 = ∅) by (vm_compute; reflexivity).
  rewrite Ht, Hp. split; [set_solver|]. split; [set_solver|].
  split; vm_compute; reflexivity.
Qed.

(** C4 (amended): when, after [load()], module [A] is in the list of
    modules force-unloaded by conflicts, the declared module [B] was
    neither recorded as preloaded nor itself force-unloaded, and no other
    module of the conflicted list conflicts with [A], then after the
    matching [unload()] [A] is loaded and [B] is not. *)
Theorem conflict_restore (sys : ModulesSystem)
    (e : Environment) (a : Ambient) (A B : string) e1 a1 t1 e2 a2 t2 :
  load sys e a = (e1, a1, t1) ->
  A ∈ conflicted e1 -> B ∈ modules e ->
  B ∉ preloaded e1 -> B ∉ conflicted e1 ->
  (∀ c, c ∈ conflicted e1 -> c ≠ A -> conflicting sys c A = false) ->
  unload sys e1 a1 = (e2, a2, t2) ->
  A ∈ amb_mods a2 ∧ B ∉ amb_mods a2.
Proof.
  intros Hl HA HB HBp HBc HcA Hu.
  assert (Ha2 : a2 = (unload sys e1 a1).1.2) by (by rewrite Hu). clear Hu. subst a2.
  assert (Hm1 : modules e1 = modules e ∧ loaded e1 = true).
  { unfold load in Hl.
    destruct (load_modules sys (modules e) e a) as [[e0 a0] t0] eqn:Em.
    destruct (load_modules_fields sys _ _ _ _ _ _ Em) as (_ & Hm0 & _).
    destruct (load_variables (variables e0) (saved_variables e0) (amb_env a0)) as [s en].
    injection Hl as <- _ _. cbn. auto. }
  destruct Hm1 as [Hm1 Hl1].
  rewrite unload_ambient by done.
  split.
  - apply reload_modules_loaded; [by right|exact HcA].
  - intros Hin. apply reload_modules_sub in Hin as [Hin|Hin]; [|contradiction].
    apply unload_modules_mem in Hin as [_ Hn]. apply Hn. split; [|done].
    rewrite Hm1, list_elem_of_In, <- in_rev, <- list_elem_of_In. exact HB.
Qed.

(** Witness of [conflict_restore]: loading [gcc] forces [intel] out. *)
Lemma conflict_restore_witness :
  let sys := example_system [("gcc", "intel")] [] in
  let e := Environment_new "gcc-env" ["gcc"] [] in
  let a := mkAmbient ∅ ["intel"] in
  let r1 := load sys e a in
  let r2 := unload sys r1.1.1 r1.1.2 in
  "intel" ∈ amb_mods r2.1.2 ∧ "gcc" ∉ amb_mods r2.1.2.
Proof.
  intros sys e a r1 r2.
  assert (Hc : conflicted r1.1.1 = ["intel"]) by (vm_compute; reflexivity).
  assert (Hp : preloaded r1.1.1 = ∅) by (vm_compute; reflexivity).
  apply (conflict_restore sys e a "intel" "gcc" r1.1.1 r1.1.2 r1.2 r2.1.1 r2.1.2 r2.2).
  - reflexivity.
  - rewrite Hc. set_solver.
  - cbn. set_solver.
  - rewrite Hp. set_solver.
  - rewrite Hc. set_solver.
  - intros c Hin Hne. rewrite Hc in Hin. apply list_elem_of_singleton in Hin. contradiction.
  - reflexivity.
Defined.

(* ================================================================== *)
(** * Further properties of the module *)

(** ** Strings *)

Lemma str_app_cons (c : ascii) (s1 s2 : string) :
  String c s1 +:+ s2 = String c (s1 +:+ s2).
Proof. reflexivity. Qed.

Lemma str_app_nil_l (s : string) : "" +:+ s = s.
Proof. reflexivity. Qed.

Lemma str_app_nil_r (s : string) : s +:+ "" = s.
Proof. induction s as [|c s IH]; [done|]. by rewrite str_app_cons, IH. Qed.

Lemma str_app_assoc (s1 s2 s3 : string) : s1 +:+ (s2 +:+ s3) = (s1 +:+ s2) +:+ s3.
Proof. induction s1 as [|c s1 IH]; [done|]. by rewrite !str_app_cons, IH. Qed.

(** ** expandvars *)

Lemma take_word_app (s : string) : (take_word s).1 +:+ (take_word s).2 = s.
Proof.
  induction s as [|c s IH]; simpl; [done|].
  destruct (is_word_char c); [|done].
  destruct (take_word s) as [w r]. simpl in *. by rewrite str_app_cons, IH.
Qed.

Lemma take_brace_app (s nm tail : string) :
  take_brace s = Some (nm, tail) -> s = nm +:+ String "}"%char tail.
Proof.
  revert nm tail. induction s as [|c s IH]; intros nm tail H; simpl in H; [done|].
  destruct (Ascii.eqb c "}"%char) eqn:Ec.
  - apply Ascii.eqb_eq in Ec. subst. by injection H as <- <-.
  - destruct (take_brace s) as [[w r]|] eqn:Eb; [|done].
    injection H as <- <-. rewrite str_app_cons. f_equal. by apply IH.
Qed.

Lemma expand_aux_no_dollar (fuel : nat) (environ : gmap string string) (s : string) :
  "$"%char ∉ Strings.String.list_ascii_of_string s -> expand_aux fuel environ s = s.
Proof.
  revert s. induction fuel as [|fuel IH]; intros s Hs; [by destruct s|].
  destruct s as [|c s]; [done|]. simpl in Hs |- *.
  apply not_elem_of_cons in Hs as [Hc Hs].
  destruct (Ascii.eqb c "$"%char) eqn:Ec.
  - apply Ascii.eqb_eq in Ec. congruence.
  - by rewrite IH.
Qed.

Lemma prefix_app (p t : string) : Strings.String.prefix p (p +:+ t) = true.
Proof.
  induction p as [|c p IH]; [by destruct t|]. rewrite str_app_cons. cbn.
  case (ascii_dec c c); [intros _; exact IH|congruence].
Qed.

Lemma occurs_prefix (x s : string) : Strings.String.prefix x s = true -> occurs x s = true.
Proof. intros H. destruct s; cbn [occurs]; by rewrite H. Qed.

Lemma occurs_app_r (x u t : string) : occurs x (u +:+ t) = false -> occurs x t = false.
Proof.
  induction u as [|c u IH]; [done|]. intros H. apply IH.
  cbn in H. by apply orb_false_iff in H as [_ H].
Qed.

Lemma expand_aux_unset (fuel : nat) (environ : gmap string string) (s : string) :
  (∀ nm v, environ !! nm = Some v ->
     occurs ("$" +:+ nm) s = false ∧ occurs ("${" +:+ nm +:+ "}") s = false) ->
  expand_aux fuel environ s = s.
Proof.
  revert s. induction fuel as [|fuel IH]; intros s Hs; [by destruct s|].
  assert (Hsub : ∀ u t, s = u +:+ t -> ∀ nm v, environ !! nm = Some v ->
            occurs ("$" +:+ nm) t = false ∧ occurs ("${" +:+ nm +:+ "}") t = false).
  { intros u t -> nm v H. destruct (Hs nm v H) as [H1 H2].
    split; by eapply occurs_app_r. }
  destruct s as [|c rest]; [done|]. cbn [expand_aux].
  destruct (Ascii.eqb c "$"%char) eqn:Ec;
    [|rewrite IH; [done|]; exact (Hsub (String c "") rest eq_refl)].
  apply Ascii.eqb_eq in Ec. subst c.
  destruct rest as [|b r2]; [done|].
  destruct (Ascii.eqb b "{"%char) eqn:Eb.
  - apply Ascii.eqb_eq in Eb. subst b.
    destruct (take_brace r2) as [[nm tail]|] eqn:Et;
      [|rewrite IH; [done|]; exact (Hsub "$" (String "{" r2) eq_refl)].
    apply take_brace_app in Et. subst r2.
    assert (He : String "$" (String "{" (nm +:+ String "}" tail)) =
                 ("${" +:+ nm +:+ "}") +:+ tail).
    { by rewrite <- !str_app_assoc. }
    destruct (environ !! nm) as [v|] eqn:Ev.
    + exfalso. destruct (Hs nm v Ev) as [_ H2].
      rewrite He, occurs_prefix in H2; [discriminate|apply prefix_app].
    + rewrite IH; [by rewrite He|]. exact (Hsub _ tail He).
  - pose proof (take_word_app (String b r2)) as Hw.
    destruct (take_word (String b r2)) as [nm tail] eqn:Et. simpl in Hw.
    destruct nm as [|c nm'];
      [rewrite IH; [done|]; exact (Hsub "$" (String b r2) eq_refl)|].
    assert (He : String "$" (String b r2) = ("$" +:+ String c nm') +:+ tail)
      by (rewrite <- Hw; reflexivity).
    destruct (environ !! String c nm') as [v|] eqn:Ev.
    + exfalso. destruct (Hs _ v Ev) as [H1 _].
      rewrite He, occurs_prefix in H1; [discriminate|apply prefix_app].
    + rewrite IH; [by rewrite He|]. exact (Hsub _ tail He).
Qed.

(** ** OrderedDict *)

Lemma od_set_keys_iff (k v : string) (d : list (string * string)) x :
  x ∈ map fst (od_set k v d) <-> x = k ∨ x ∈ map fst d.
Proof.
  induction d as [|[k' v'] d IH]; simpl; [set_solver|].
  case_bool_decide; subst; simpl; [set_solver|].
  rewrite !elem_of_cons, IH. tauto.
Qed.

Lemma od_set_keys_old (k v : string) (d : list (string * string)) :
  k ∈ map fst d -> map fst (od_set k v d) = map fst d.
Proof.
  induction d as [|[k' v'] d IH]; simpl; intros Hk; [set_solver|].
  case_bool_decide; subst; simpl; [done|].
  f_equal. apply IH. apply elem_of_cons in Hk as [Hk|Hk]; [congruence|done].
Qed.

Lemma od_set_keys_new (k v : string) (d : list (string * string)) :
  k ∉ map fst d -> map fst (od_set k v d) = map fst d ++ [k].
Proof.
  induction d as [|[k' v'] d IH]; simpl; intros Hk; [done|].
  apply not_elem_of_cons in Hk as [Hne Hk].
  rewrite bool_decide_eq_false_2 by done. simpl. by rewrite IH.
Qed.

Lemma OrderedDict_snoc (vs : list (string * string)) (k v : string) :
  OrderedDict (vs ++ [(k, v)]) = od_set k v (OrderedDict vs).
Proof. unfold OrderedDict. by rewrite fold_left_app. Qed.

Lemma OrderedDict_keys_iff (vs : list (string * string)) x :
  x ∈ map fst (OrderedDict vs) <-> x ∈ map fst vs.
Proof.
  induction vs as [|[k v] vs IH] using rev_ind; [done|].
  rewrite OrderedDict_snoc, od_set_keys_iff, IH, map_app, elem_of_app. simpl.
  rewrite list_elem_of_singleton. tauto.
Qed.

Lemma list_to_map_od_set (k v : string) (d : list (string * string)) :
  list_to_map (od_set k v d) =@{gmap string string} <[k:=v]> (list_to_map d).
Proof.
  induction d as [|[k' v'] d IH]; simpl; [done|].
  case_bool_decide; subst; simpl.
  - by rewrite insert_insert_eq.
  - rewrite IH. by apply insert_insert_ne.
Qed.

(** ** details *)

Lemma str_join_cons (sep x : string) (l : list string) :
  str_join sep (x :: l) = match l with [] => x | _ => x +:+ sep +:+ str_join sep l end.
Proof. by destruct l. Qed.

(** ** Equality *)

Lemma keys_pairwise_eq_sym (ks1 ks2 : list string) :
  keys_pairwise_eq ks1 ks2 = keys_pairwise_eq ks2 ks1.
Proof.
  revert ks2. induction ks1 as [|k1 ks1 IH]; intros [|k2 ks2]; simpl; try done.
  rewrite IH. f_equal. apply bool_decide_ext. split; congruence.
Qed.

Lemma od_eq_sym (d1 d2 : list (string * string)) : od_eq d1 d2 = od_eq d2 d1.
Proof.
  unfold od_eq. rewrite keys_pairwise_eq_sym. f_equal. apply bool_decide_ext. split; congruence.
Qed.

Lemma var_store_eq_sym (v1 v2 : var_store) : var_store_eq v1 v2 = var_store_eq v2 v1.
Proof.
  assert (Hb : ∀ m1 m2 : gmap string string, bool_decide (m1 = m2) = bool_decide (m2 = m1)).
  { intros m1 m2. apply bool_decide_ext. split; congruence. }
  destruct v1, v2; simpl; [apply od_eq_sym|apply Hb..].
Qed.

Lemma Environment_eq_refl (e : Environment) : Environment_eq e e = true.
Proof.
  unfold Environment_eq, od_eq.
  rewrite !bool_decide_eq_true_2 by done. apply keys_pairwise_eq_refl.
Qed.

(** ** Properties of OrderedDict, details and the == operator *)

(** [collections.OrderedDict(pairs)] keeps the first position of a key: adding a pair for a key already present leaves the key order as it is, a new key goes last. *)
Theorem OrderedDict_key_order (vs : list (string * string)) (k v : string) :
  map fst (OrderedDict (vs ++ [(k, v)])) =
  if bool_decide (k ∈ map fst vs) then map fst (OrderedDict vs)
  else map fst (OrderedDict vs) ++ [k].
Proof.
  rewrite OrderedDict_snoc. case_bool_decide as Hk.
  - apply od_set_keys_old. by apply OrderedDict_keys_iff.
  - apply od_set_keys_new. by rewrite OrderedDict_keys_iff.
Qed.

(** As a mapping, [OrderedDict(pairs)] holds the last value given for each key. *)
Theorem OrderedDict_last_value_wins (vs : list (string * string)) :
  list_to_map (OrderedDict vs) =@{gmap string string} list_to_map (rev vs).
Proof.
  induction vs as [|[k v] vs IH] using rev_ind; [done|].
  rewrite OrderedDict_snoc, list_to_map_od_set, IH, rev_app_distr. reflexivity.
Qed.

(** [Environment.details] is one line for the name, one for the modules, one [variables:] header and one line per variable, in declared order; with no variable the header ends the text. *)
Theorem details_lines (e : Environment) :
  details e =
  str_join nl ([name e +:+ ":"; "    modules: " +:+ str_join ", " (modules e);
                "    variables:"] ++
               map (fun '(k, v) => "        - " +:+ k +:+ "=" +:+ v) (variables e)).
Proof.
  unfold details. destruct (variables e) as [|[k v] vs]; [reflexivity|].
  rewrite bool_decide_eq_false_2; [reflexivity|].
  destruct vs as [|[k' v'] vs]; discriminate.
Qed.

(** [x == y] between instances of [Environment] and its subclasses is symmetric, although [__eq__] returns [NotImplemented] when [other] is not an instance of [type(self)]. *)
Theorem py_eq_sym (x y : env_instance) :
  py_eq x y = py_eq y x.
Proof.
  unfold py_eq, Environment_eq_method.
  destruct x as [cx nx mx vx], y as [cy ny my vy]; simpl.
  destruct cx, cy; simpl; try reflexivity;
    rewrite var_store_eq_sym; f_equal; f_equal; apply bool_decide_ext; split; congruence.
Qed.

(** An [Environment] and an [EnvironmentSnapshot] compare equal (either way round) iff they have the same name, the same module set and the same variable mapping; the snapshot's variables are a plain [dict], so the insertion order does not count here. *)
Theorem Environment_snapshot_eq (e : Environment) (s : EnvironmentSnapshot) :
  (py_eq (Environment_instance e) (EnvironmentSnapshot_instance s) = true <->
   name e = snap_name s ∧ (∀ m, m ∈ modules e <-> m ∈ snap_modules s) ∧
   list_to_map (variables e) = snap_variables s) ∧
  py_eq (EnvironmentSnapshot_instance s) (Environment_instance e) =
  py_eq (Environment_instance e) (EnvironmentSnapshot_instance s).
Proof.
  split; [|reflexivity].
  unfold py_eq, Environment_eq_method; simpl.
  rewrite !andb_true_iff, !bool_decide_eq_true.
  assert (Hset : list_to_set (modules e) =@{gset string} list_to_set (snap_modules s) <->
                 (∀ m, m ∈ modules e <-> m ∈ snap_modules s)).
  { split; intros H.
    - intros m. rewrite <- !(elem_of_list_to_set (C:=gset string)). by rewrite H.
    - apply set_eq. intros m. rewrite !elem_of_list_to_set. apply H. }
  rewrite Hset. tauto.
Qed.

(** [__eq__] is inherited: two [ProgEnvironment]s built from the same name, modules and variables compare equal whatever their compilers and flags; a [ProgEnvironment] and an [Environment] compare as Environments; a [ProgEnvironment] and an [EnvironmentSnapshot] never compare equal. *)
Theorem ProgEnvironment_eq_ignores_compilers (nm : string) (ms : list string)
    (vs : list (string * string))
    (cc1 cc2 : string) (cxx1 cxx2 ftn1 ftn2 : option string) (nvcc1 nvcc2 : string)
    (cpp1 cpp2 cf1 cf2 cxxf1 cxxf2 ff1 ff2 ld1 ld2 : option string)
    (p : ProgEnvironment) (e : Environment) (s : EnvironmentSnapshot) :
  py_eq (ProgEnvironment_instance
           (ProgEnvironment_new nm ms vs cc1 cxx1 ftn1 nvcc1 cpp1 cf1 cxxf1 ff1 ld1))
        (ProgEnvironment_instance
           (ProgEnvironment_new nm ms vs cc2 cxx2 ftn2 nvcc2 cpp2 cf2 cxxf2 ff2 ld2)) = true ∧
  py_eq (ProgEnvironment_instance p) (Environment_instance e) = Environment_eq e (prog_env p) ∧
  py_eq (Environment_instance e) (ProgEnvironment_instance p) = Environment_eq e (prog_env p) ∧
  py_eq (ProgEnvironment_instance p) (EnvironmentSnapshot_instance s) = false ∧
  py_eq (EnvironmentSnapshot_instance s) (ProgEnvironment_instance p) = false.
Proof.
  split; [apply (Environment_eq_refl (Environment_new nm ms vs))|].
  repeat split; reflexivity.
Qed.

Section LoadUnloadLog.

Variable sys : ModulesSystem.

Lemma flat_map_app_distr {A B} (f : A -> list B) (l1 l2 : list A) :
  flat_map f (l1 ++ l2) = flat_map f l1 ++ flat_map f l2.
Proof. induction l1 as [|x l1 IH]; simpl; [done|]. by rewrite IH, app_assoc. Qed.

Lemma unload_modules_trace (ms : list string) (pl : gset string) (a : Ambient) :
  (unload_modules sys ms pl a).2 = map ReqUnload (filter (fun m => m ∉ pl) ms).
Proof.
  revert a. induction ms as [|m ms IH]; intros a; simpl; [done|].
  rewrite filter_cons. case_bool_decide as Hm.
  - rewrite decide_False by (intros Hn; by apply Hn). apply IH.
  - rewrite decide_True by done.
    pose proof (IH (unload_module sys m a)) as IH'.
    destruct (unload_modules sys ms pl (unload_module sys m a)) as [a' t].
    simpl in *. by rewrite IH'.
Qed.

Lemma reload_modules_trace (ms : list string) (a : Ambient) :
  ∃ css : list (list string), length css = length ms ∧
    (reload_modules sys ms a).2 = zip_with (fun m cs => ReqLoad false m cs) ms css.
Proof.
  revert a. induction ms as [|m ms IH]; intros a; simpl; [by exists []|].
  destruct (load_module sys false m a) as [cs a1].
  destruct (IH a1) as [css [Hl Ht]].
  destruct (reload_modules sys ms a1) as [a2 t]. simpl in *.
  exists (cs :: css). simpl. split; [by rewrite Hl|]. by rewrite Ht.
Qed.

Lemma load_modules_log (ms : list string) (e : Environment) (a : Ambient) e' a' t :
  load_modules sys ms e a = (e', a', t) ->
  ∃ info : list (bool * list string),
    length info = length ms ∧
    t = flat_map (fun '(m, (b, cs)) => [ReqIsLoaded m b; ReqLoad true m cs]) (zip ms info) ∧
    conflicted e' = conflicted e ++ flat_map (fun '(_, (_, cs)) => cs) (zip ms info) ∧
    module_ops e' = module_ops e ++
      flat_map (fun '(m, (_, cs)) => map (fun c => (OpUnload, c)) cs ++ [(OpLoad, m)])
               (zip ms info) ∧
    (∀ x, x ∈ preloaded e' <-> x ∈ preloaded e ∨ ReqIsLoaded x true ∈ t).
Proof.
  revert e a e' a' t. induction ms as [|m ms IH]; intros e a e' a' t H; simpl in H.
  - inversion H; subst. exists []. simpl. rewrite !app_nil_r. set_solver.
  - destruct (load_step sys e a m) as [[e1 a1] t1] eqn:E1.
    destruct (load_modules sys ms e1 a1) as [[e2 a2] t2] eqn:E2.
    inversion H; subst; clear H.
    destruct (IH _ _ _ _ _ E2) as (info & Hl & Ht & Hc & Ho & Hp).
    unfold load_step in E1.
    destruct (load_module sys true m a) as [cs a''].
    injection E1 as He1 Ha1 Ht1. subst e1 a1 t1. cbn [conflicted module_ops preloaded] in *.
    exists ((is_module_loaded (amb_mods a) m, cs) :: info). simpl.
    split; [by rewrite Hl|]. split; [by rewrite Ht|].
    split; [by rewrite Hc, app_assoc|]. split; [by rewrite Ho, !app_assoc|].
    intros x. rewrite Hp. cbn [app]. rewrite !elem_of_cons.
    destruct (is_module_loaded (amb_mods a) m) eqn:Eb.
    + rewrite elem_of_union, elem_of_singleton. split.
      * intros [[->|Hx]|Hx]; auto.
      * intros [Hx|[Hx|[Hx|Hx]]]; auto; [injection Hx as ->; auto|discriminate].
    + split; [intros [Hx|Hx]; auto|].
      intros [Hx|[Hx|[Hx|Hx]]]; auto; discriminate.
Qed.

Lemma load_step_mem (e : Environment) (a : Ambient) (m : string) e1 a1 t1 :
  load_step sys e a m = (e1, a1, t1) ->
  ∃ cs, conflicted e1 = conflicted e ++ cs ∧ m ∈ amb_mods a1 ∧
        (∀ x, x ∈ amb_mods a -> x ∈ amb_mods a1 ∨ x ∈ cs).
Proof.
  unfold load_step, load_module, is_module_loaded. case_bool_decide as Hm.
  - intros H. injection H as <- <- <-. exists []. cbn [conflicted].
    rewrite app_nil_r. auto.
  - set (cs := filter (λ x, conflicting sys m x = true) (amb_mods a)).
    intros H. injection H as <- <- <-. exists cs. cbn [conflicted amb_mods].
    split; [done|]. split.
    + rewrite elem_of_app. right. by apply list_elem_of_singleton.
    + intros x Hx. destruct (decide (x ∈ cs)) as [Hc|Hc]; [by right|].
      left. rewrite elem_of_app, list_elem_of_filter. by left.
Qed.

(** Every declared module is loaded after the module loop, unless the loop
    itself force-unloaded it. *)
Lemma load_modules_mem (ms : list string) (e : Environment) (a : Ambient) e' a' t :
  load_modules sys ms e a = (e', a', t) ->
  ∃ cs, conflicted e' = conflicted e ++ cs ∧
        (∀ x, x ∈ amb_mods a -> x ∈ amb_mods a' ∨ x ∈ cs) ∧
        (∀ m, m ∈ ms -> m ∈ amb_mods a' ∨ m ∈ cs).
Proof.
  revert e a e' a' t. induction ms as [|m ms IH]; intros e a e' a' t H; simpl in H.
  - inversion H; subst. exists []. rewrite app_nil_r. split; [done|]. split; [auto|set_solver].
  - destruct (load_step sys e a m) as [[e1 a1] t1] eqn:E1.
    destruct (load_modules sys ms e1 a1) as [[e2 a2] t2] eqn:E2.
    inversion H; subst; clear H.
    destruct (load_step_mem _ _ _ _ _ _ E1) as (cs1 & Hc1 & Hm & Hst).
    destruct (IH _ _ _ _ _ E2) as (cs2 & Hc2 & Hst2 & Hms2).
    exists (cs1 ++ cs2). split; [by rewrite Hc2, Hc1, app_assoc|]. split.
    + intros x Hx. rewrite elem_of_app.
      destruct (Hst x Hx) as [Hx1|Hx1]; [|by right; left].
      destruct (Hst2 x Hx1); [by left|by right; right].
    + intros x Hx. rewrite elem_of_app. apply elem_of_cons in Hx as [->|Hx].
      * destruct (Hst2 m Hm); [by left|by right; right].
      * destruct (Hms2 x Hx); [by left|by right; right].
Qed.

Lemma load_modules_all_loaded (ms : list string) (e : Environment) (a : Ambient) e' a' t :
  (∀ m, m ∈ ms -> m ∈ amb_mods a) ->
  load_modules sys ms e a = (e', a', t) ->
  a' = a ∧ conflicted e' = conflicted e ∧ (∀ m, m ∈ ms -> m ∈ preloaded e').
Proof.
  revert e a e' a' t. induction ms as [|m ms IH]; intros e a e' a' t Hall H; simpl in H.
  - inversion H; subst. set_solver.
  - destruct (load_step sys e a m) as [[e1 a1] t1] eqn:E1.
    destruct (load_modules sys ms e1 a1) as [[e2 a2] t2] eqn:E2.
    inversion H; subst; clear H.
    assert (Hm : m ∈ amb_mods a) by (apply Hall; set_solver).
    unfold load_step, load_module, is_module_loaded in E1.
    rewrite bool_decide_eq_true_2 in E1 by done.
    injection E1 as <- <- <-.
    assert (Hall' : ∀ x, x ∈ ms -> x ∈ amb_mods a) by (intros x Hx; apply Hall; set_solver).
    destruct (IH _ _ _ _ _ Hall' E2) as (-> & Hc & Hp).
    destruct (load_modules_fields sys _ _ _ _ _ _ E2) as (_ & _ & _ & _ & _ & Hsub).
    cbn [conflicted preloaded] in *. rewrite Hc, app_nil_r.
    split; [done|]. split; [done|].
    intros x Hx. apply elem_of_cons in Hx as [->|Hx]; [|by apply Hp].
    apply Hsub. set_solver.
Qed.

Lemma load_variables_value (vs : list (string * string)) (s en : gmap string string) k v :
  NoDup (map fst vs) -> (k, v) ∈ vs ->
  "$"%char ∉ Strings.String.list_ascii_of_string v ->
  (load_variables vs s en).2 !! k = Some v.
Proof.
  revert s en. induction vs as [|[k' v'] vs IH]; intros s en Hnd Hin Hv;
    [by apply elem_of_nil in Hin|].
  simpl in Hnd. inversion Hnd as [|? ? Hk' Hnd']; subst. cbn [load_variables].
  apply elem_of_cons in Hin as [Heq|Hin].
  - injection Heq as -> ->.
    rewrite (proj2 (load_variables_notin _ _ _ _ Hk')), lookup_insert_eq.
    unfold expandvars. by rewrite expand_aux_no_dollar.
  - by apply IH.
Qed.

(** The fields of the Environment after [load] and [unload]. *)
Lemma load_fields (e : Environment) (a : Ambient) :
  let e1 := (load sys e a).1.1 in
  name e1 = name e ∧ modules e1 = modules e ∧ variables e1 = variables e ∧
  loaded e1 = true.
Proof.
  unfold load.
  destruct (load_modules sys (modules e) e a) as [[e0 a0] t0] eqn:Em.
  destruct (load_modules_fields sys _ _ _ _ _ _ Em) as (? & ? & ? & _).
  destruct (load_variables (variables e0) (saved_variables e0) (amb_env a0)) as [s en].
  simpl. auto.
Qed.

Lemma unload_fields (e : Environment) (a : Ambient) :
  (unload sys e a).1.1 =
  {| name := name e; modules := modules e; variables := variables e;
     loaded := false; saved_variables := saved_variables e;
     conflicted := conflicted e; preloaded := preloaded e;
     module_ops := module_ops e |}.
Proof.
  unfold unload. destruct (loaded e) eqn:El; cbn [negb].
  - destruct (unload_modules sys _ _ _) as [a1 t1]. cbn [fst].
    destruct (reload_modules sys (conflicted e) a1) as [a2 t2]. reflexivity.
  - destruct e; simpl in *. by subst.
Qed.

Lemma load_frame (e : Environment) (a : Ambient) k :
  module_keeps sys k -> k ∉ map fst (variables e) ->
  amb_env (load sys e a).1.2 !! k = amb_env a !! k ∧
  saved_variables (load sys e a).1.1 !! k = saved_variables e !! k.
Proof.
  intros Hkeep Hk. destruct (load_ambient sys e a) as [-> ->]. cbn [amb_env].
  destruct (load_modules sys (modules e) e a) as [[e0 a0] t0] eqn:Em. cbn [fst snd].
  rewrite <- (load_modules_keeps sys k Hkeep _ _ _ _ _ _ Em).
  pose proof (load_variables_notin (variables e) (saved_variables e) (amb_env a0) k Hk)
    as [H1 H2].
  auto.
Qed.

Lemma unload_frame (e : Environment) (a : Ambient) k :
  module_keeps sys k -> k ∉ map fst (variables e) ->
  amb_env (unload sys e a).1.2 !! k = amb_env a !! k.
Proof.
  intros Hkeep Hk. destruct (loaded e) eqn:El.
  - rewrite unload_env_keeps by done. by apply restore_variables_notin.
  - unfold unload. by rewrite El.
Qed.

(** [load] sets a variable declared once, and saves the value it replaces. *)
Lemma load_variable_at (e : Environment) (a : Ambient) (k v : string)
    (pre post : list (string * string)) :
  variables e = pre ++ (k, v) :: post ->
  k ∉ map fst pre -> k ∉ map fst post ->
  amb_env (load sys e a).1.2 !! k =
    Some (expandvars (load_variables pre (saved_variables e)
                        (amb_env (load_modules sys (modules e) e a).1.2)).2 v) ∧
  (∀ x, amb_env (load_modules sys (modules e) e a).1.2 !! k = Some x ->
        saved_variables (load sys e a).1.1 !! k = Some x).
Proof.
  intros Hvs Hpre Hpost. destruct (load_ambient sys e a) as [-> ->].
  set (en0 := amb_env (load_modules sys (modules e) e a).1.2). cbn [amb_env].
  rewrite Hvs, load_variables_app.
  destruct (load_variables_notin pre (saved_variables e) en0 k Hpre) as [_ Hen1].
  destruct (load_variables pre (saved_variables e) en0) as [s1 en1] eqn:E1.
  cbn [fst snd load_variables] in Hen1 |- *. rewrite Hen1.
  set (s1' := match en0 !! k with Some old => <[k:=old]> s1 | None => s1 end).
  destruct (load_variables_notin post s1' (<[k:=expandvars en1 v]> en1) k Hpost)
    as [Hs2 Hen2].
  destruct (load_variables post s1' (<[k:=expandvars en1 v]> en1)) as [s2 en2].
  cbn [fst snd] in *.
  split; [by rewrite Hen2, lookup_insert_eq|].
  intros x Hx. rewrite Hs2. unfold s1'. rewrite Hx. apply lookup_insert_eq.
Qed.

(** [unload] puts back the saved value of a variable declared once. *)
Lemma unload_variable_at (e : Environment) (a : Ambient) (k v x : string)
    (pre post : list (string * string)) :
  variables e = pre ++ (k, v) :: post ->
  k ∉ map fst pre -> k ∉ map fst post ->
  module_keeps sys k ->
  loaded e = true -> saved_variables e !! k = Some x ->
  amb_env (unload sys e a).1.2 !! k = Some x.
Proof.
  intros Hvs Hpre Hpost Hkeep Hl Hs. rewrite unload_env_keeps by done.
  rewrite Hvs, restore_variables_app. cbn [restore_variables].
  rewrite restore_variables_notin by done. rewrite Hs. apply lookup_insert_eq.
Qed.

(** [emit_load_commands] as a concatenation: the module operation log in
    order, or the load commands of the declared modules when the log is
    empty, then one [export NAME=VALUE] per variable. *)
Lemma emit_load_commands_flat (emit_load emit_unload : string -> list string)
    (e : Environment) :
  emit_load_commands emit_load emit_unload e =
  match module_ops e with
  | [] => flat_map emit_load (modules e)
  | ops => flat_map (fun '(op, m) => match op with
                                     | OpLoad => emit_load m
                                     | OpUnload => emit_unload m
                                     end) ops
  end ++ map (fun kv => "export " +:+ kv.1 +:+ "=" +:+ kv.2) (variables e).
Proof.
  unfold emit_load_commands.
  rewrite !fold_left_pair_app. simpl. f_equal.
  - destruct (module_ops e) as [|o ops].
    + induction (modules e) as [|m ms IH]; simpl; [done|]. by rewrite IH.
    + cbn [flat_map]. f_equal; [by destruct o as [[] m]|].
      apply flat_map_ext. intros [[] m]; reflexivity.
  - induction (variables e) as [|[k v] vs IH]; simpl; [done|]. by rewrite IH.
Qed.

(** *** Properties *)

(** [load()] issues, per declared module in order, one [is_module_loaded] query and one forced [load_module]; the force-unloaded modules are appended to the conflicted list and the log gets their [u] entries then the [l] entry of the module; the modules answered as loaded are added to the preloaded set. Nothing is reset. *)
Theorem load_log (e : Environment) (a : Ambient) :
  let '(e1, a1, t) := load sys e a in
  ∃ info : list (bool * list string),
    length info = length (modules e) ∧
    t = flat_map (fun '(m, (b, cs)) => [ReqIsLoaded m b; ReqLoad true m cs])
                 (zip (modules e) info) ∧
    conflicted e1 = conflicted e ++ flat_map (fun '(_, (_, cs)) => cs) (zip (modules e) info) ∧
    module_ops e1 = module_ops e ++
      flat_map (fun '(m, (_, cs)) => map (fun c => (OpUnload, c)) cs ++ [(OpLoad, m)])
               (zip (modules e) info) ∧
    (∀ x, x ∈ preloaded e1 <-> x ∈ preloaded e ∨ ReqIsLoaded x true ∈ t).
Proof.
  unfold load.
  destruct (load_modules sys (modules e) e a) as [[e0 a0] t0] eqn:Em.
  destruct (load_variables (variables e0) (saved_variables e0) (amb_env a0)) as [s en].
  exact (load_modules_log _ _ _ _ _ _ Em).
Qed.

(** After [load()], [emit_load_commands] replays the whole module operation log, the operations of earlier loads first, then per declared module the unload commands of the modules it forced out and its own load commands, and then the exports. *)
Theorem emit_load_commands_after_load (emit_load emit_unload : string -> list string)
    (e : Environment) (a : Ambient) :
  let '(e1, a1, t) := load sys e a in
  ∃ info : list (bool * list string),
    length info = length (modules e) ∧
    t = flat_map (fun '(m, (b, cs)) => [ReqIsLoaded m b; ReqLoad true m cs])
                 (zip (modules e) info) ∧
    emit_load_commands emit_load emit_unload e1 =
      flat_map (fun '(op, m) => match op with
                                | OpLoad => emit_load m
                                | OpUnload => emit_unload m
                                end) (module_ops e) ++
      flat_map (fun '(m, (_, cs)) => flat_map emit_unload cs ++ emit_load m)
               (zip (modules e) info) ++
      map (fun kv => "export " +:+ kv.1 +:+ "=" +:+ kv.2) (variables e).
Proof.
  pose proof (load_log e a) as Hlog.
  pose proof (load_fields e a) as Hf.
  destruct (load sys e a) as [[e1 a1] t]. cbn [fst] in Hf.
  destruct Hf as (_ & Hm & Hv & _).
  destruct Hlog as (info & Hlen & Ht & _ & Ho & _).
  exists info. split; [done|]. split; [done|].
  rewrite emit_load_commands_flat, Hm, Hv, Ho, app_assoc. f_equal.
  set (emit_op := fun '(op, m) => match op with
                                  | OpLoad => emit_load m
                                  | OpUnload => emit_unload m
                                  end : list string).
  assert (Hz : ∀ z : list (string * (bool * list string)),
            flat_map emit_op
              (flat_map (fun '(m, (_, cs)) => map (fun c => (OpUnload, c)) cs ++ [(OpLoad, m)]) z) =
            flat_map (fun '(m, (_, cs)) => flat_map emit_unload cs ++ emit_load m) z).
  { induction z as [|[m [b cs]] z IHz]; [done|]. cbn [flat_map].
    rewrite !flat_map_app_distr, IHz. f_equal. f_equal.
    - induction cs as [|c cs IHc]; [done|]. cbn [map flat_map]. by rewrite IHc.
    - simpl. by rewrite app_nil_r. }
  destruct (module_ops e ++ _) as [|o ops] eqn:Eops.
  - apply app_eq_nil in Eops as [-> Hnew].
    destruct (modules e) as [|m ms]; [done|].
    destruct info as [|[b cs] info]; [done|].
    simpl in Hnew. apply app_eq_nil in Hnew as [Hnew _].
    apply app_eq_nil in Hnew as [_ Hnew]. discriminate.
  - rewrite <- Eops, flat_map_app_distr. f_equal. apply Hz.
Qed.

(** [unload()] of a loaded Environment issues one [unload_module] per declared module not recorded as preloaded, in reverse declared order, then one unforced [load_module] per module of the conflicted list, in order. *)
Theorem unload_log (e : Environment) (a : Ambient) :
  loaded e = true ->
  ∃ css : list (list string),
    length css = length (conflicted e) ∧
    (unload sys e a).2 =
      map ReqUnload (filter (fun m => m ∉ preloaded e) (rev (modules e))) ++
      zip_with (fun m cs => ReqLoad false m cs) (conflicted e) css.
Proof.
  intros Hl. unfold unload. rewrite Hl. cbn [negb].
  set (a0 := mkAmbient (restore_variables (variables e) (saved_variables e) (amb_env a))
                       (amb_mods a)).
  pose proof (unload_modules_trace (rev (modules e)) (preloaded e) a0) as H1.
  destruct (unload_modules sys (rev (modules e)) (preloaded e) a0) as [a1 u1].
  cbn [snd] in H1.
  destruct (reload_modules_trace (conflicted e) a1) as [css [Hlen H2]].
  destruct (reload_modules sys (conflicted e) a1) as [a2 u2]. cbn [snd] in H2.
  exists css. cbn [snd]. by rewrite H1, H2.
Qed.

(** A second [unload()] does nothing: no request and no change to [os.environ] or the modules. *)
Theorem unload_twice_noop (e : Environment) (a a' : Ambient) :
  unload sys (unload sys e a).1.1 a' = ((unload sys e a).1.1, a', []).
Proof. rewrite unload_fields. reflexivity. Qed.

(** [load()] and [unload()] keep the name, modules and variables; [load()] marks the Environment loaded and [unload()] marks it unloaded, leaving the saved variables, the conflicted list, the preloaded set and the operation log as they were. *)
Theorem load_unload_keep_declaration (e : Environment) (a : Ambient) :
  let e1 := (load sys e a).1.1 in
  let e2 := (unload sys e a).1.1 in
  name e1 = name e ∧ modules e1 = modules e ∧ variables e1 = variables e ∧
  loaded e1 = true ∧
  name e2 = name e ∧ modules e2 = modules e ∧ variables e2 = variables e ∧
  loaded e2 = false ∧ saved_variables e2 = saved_variables e ∧
  conflicted e2 = conflicted e ∧ preloaded e2 = preloaded e ∧
  module_ops e2 = module_ops e.
Proof.
  cbn zeta. rewrite unload_fields. cbn.
  destruct (load_fields e a) as (? & ? & ? & ?). auto 20.
Qed.

(** [load()] and [unload()] leave as it is in [os.environ] every variable that the Environment does not declare and that no module load or unload changes, and [load()] saves no value for it. *)
Theorem load_unload_frame (e : Environment) (a : Ambient) (k : string) :
  module_keeps sys k -> k ∉ map fst (variables e) ->
  amb_env (load sys e a).1.2 !! k = amb_env a !! k ∧
  saved_variables (load sys e a).1.1 !! k = saved_variables e !! k ∧
  amb_env (unload sys e a).1.2 !! k = amb_env a !! k.
Proof.
  intros Hkeep Hk. destruct (load_frame e a k Hkeep Hk). split; [done|]. split; [done|].
  by apply unload_frame.
Qed.

(** With distinct variable names and values without [$], [is_loaded] holds right after [load()], unless this [load()] force-unloaded one of the declared modules (the entries it appends to the conflicted list). *)
Theorem load_establishes_is_loaded (e : Environment) (a : Ambient) :
  NoDup (map fst (variables e)) ->
  (∀ k v, (k, v) ∈ variables e -> "$"%char ∉ Strings.String.list_ascii_of_string v) ->
  (∀ m, m ∈ modules e -> m ∉ drop (length (conflicted e)) (conflicted (load sys e a).1.1)) ->
  is_loaded (load sys e a).1.1 (load sys e a).1.2 = true.
Proof.
  intros Hnd Hvs Hms. apply is_loaded_spec. unfold load in *.
  destruct (load_modules sys (modules e) e a) as [[e0 a0] t0] eqn:Em.
  destruct (load_modules_fields sys _ _ _ _ _ _ Em) as (_ & Hm0 & Hv0 & _ & _ & _).
  destruct (load_modules_mem _ _ _ _ _ _ Em) as (cs & Hc & _ & Hmem).
  destruct (load_variables (variables e0) (saved_variables e0) (amb_env a0)) as [s en] eqn:Ev.
  cbn [fst snd modules variables conflicted amb_mods amb_env] in *.
  rewrite Hc, drop_app_length in Hms.
  rewrite Hm0, Hv0. split.
  - intros m Hm. destruct (Hmem m Hm) as [Hin|Hin]; [done|]. by destruct (Hms m Hm).
  - intros k v Hkv. rewrite Hv0 in Ev.
    assert (Hen : en !! k = Some v).
    { replace en with (load_variables (variables e) (saved_variables e0) (amb_env a0)).2
        by (by rewrite Ev).
      apply load_variables_value; [done|done|by apply (Hvs k)]. }
    rewrite Hen. unfold expandvars. rewrite expand_aux_no_dollar; [done|]. by apply (Hvs k).
Qed.

(** When all declared modules are already loaded, [load()] leaves the module list as it is, forces nothing out, records every declared module as preloaded, and the following [unload()] unloads none of them. *)
Theorem load_with_modules_already_loaded (e : Environment) (a a' : Ambient) :
  (∀ m, m ∈ modules e -> m ∈ amb_mods a) ->
  amb_mods (load sys e a).1.2 = amb_mods a ∧
  conflicted (load sys e a).1.1 = conflicted e ∧
  (∀ m, m ∈ modules e -> m ∈ preloaded (load sys e a).1.1) ∧
  (∀ m, ReqUnload m ∉ (unload sys (load sys e a).1.1 a').2).
Proof.
  intros Hall.
  assert (Hl : loaded (load sys e a).1.1 = true) by apply (load_fields e a).
  assert (Hm : modules (load sys e a).1.1 = modules e) by apply (load_fields e a).
  assert (H : amb_mods (load sys e a).1.2 = amb_mods a ∧
              conflicted (load sys e a).1.1 = conflicted e ∧
              (∀ m, m ∈ modules e -> m ∈ preloaded (load sys e a).1.1)).
  { unfold load.
    destruct (load_modules sys (modules e) e a) as [[e0 a0] t0] eqn:Em.
    destruct (load_modules_all_loaded _ _ _ _ _ _ Hall Em) as (-> & Hc & Hp).
    destruct (load_variables (variables e0) (saved_variables e0) (amb_env a)) as [s en].
    cbn. auto. }
  destruct H as (H1 & H2 & H3). split; [done|]. split; [done|]. split; [done|].
  intros m Hin.
  destruct (unload_log (load sys e a).1.1 a' Hl) as [css [_ Ht]].
  rewrite Ht, elem_of_app in Hin. destruct Hin as [Hin|Hin].
  - apply list_elem_of_fmap in Hin as [m' [Heq Hin]]. injection Heq as <-.
    apply list_elem_of_filter in Hin as [Hnp Hin].
    apply Hnp, H3. rewrite <- Hm. by apply list_elem_of_In, in_rev, list_elem_of_In.
  - apply list_elem_of_In in Hin.
    destruct (conflicted _) as [|c cs]; [done|].
    revert Hin. generalize (c :: cs). clear.
    induction css as [|cs' css IH]; intros [|c l] Hin; simpl in Hin; try done.
    destruct Hin as [Hin|Hin]; [discriminate|]. by apply (IH l).
Qed.

(** [load()] is not idempotent: a second [load()] saves the values set by the first one, so for a declared variable that no module load or unload changes, the following [unload()] puts back the value of the first [load()], not the one [os.environ] held before it. *)
Theorem load_twice_unload_restores_first_load (e : Environment) (a : Ambient)
    (k v : string) (pre post : list (string * string)) :
  variables e = pre ++ (k, v) :: post ->
  k ∉ map fst pre -> k ∉ map fst post ->
  module_keeps sys k ->
  let r1 := load sys e a in
  let r2 := load sys r1.1.1 r1.1.2 in
  amb_env (unload sys r2.1.1 r2.1.2).1.2 !! k = amb_env r1.1.2 !! k.
Proof.
  intros Hvs Hpre Hpost Hkeep r1 r2.
  destruct (load_fields e a) as (_ & _ & Hv1 & _).
  destruct (load_variable_at e a k v pre post Hvs Hpre Hpost) as [Hk1 _].
  fold r1 in Hv1, Hk1.
  assert (Hvs1 : variables r1.1.1 = pre ++ (k, v) :: post) by congruence.
  destruct (load_fields r1.1.1 r1.1.2) as (_ & _ & Hv2 & Hl2).
  destruct (load_variable_at r1.1.1 r1.1.2 k v pre post Hvs1 Hpre Hpost) as [_ Hs2].
  fold r2 in Hv2, Hl2, Hs2.
  rewrite Hk1. apply (unload_variable_at r2.1.1 r2.1.2 k v _ pre post); [congruence|done..|].
  apply Hs2.
  destruct (load_modules sys (modules r1.1.1) r1.1.1 r1.1.2) as [[e0 a0] t0] eqn:Em.
  cbn [fst snd]. rewrite (load_modules_keeps sys k Hkeep _ _ _ _ _ _ Em). exact Hk1.
Qed.

(** [swap_environments(src, dst)] leaves [src] unloaded and [dst] loaded, and a variable declared by neither and changed by no module load or unload keeps its value. *)
Theorem swap_environments_spec (src dst : Environment) (a : Ambient) (k : string) :
  let '(src', dst', a', t) := swap_environments sys src dst a in
  loaded src' = false ∧ loaded dst' = true ∧
  name src' = name src ∧ name dst' = name dst ∧
  (module_keeps sys k -> k ∉ map fst (variables src) -> k ∉ map fst (variables dst) ->
   amb_env a' !! k = amb_env a !! k).
Proof.
  unfold swap_environments.
  pose proof (unload_fields src a) as Hu.
  pose proof (unload_frame src a k) as Hfu.
  destruct (unload sys src a) as [[src' a1] t1]. cbn [fst snd] in Hu, Hfu. subst src'.
  pose proof (load_fields dst a1) as Hl.
  pose proof (load_frame dst a1 k) as Hfl.
  destruct (load sys dst a1) as [[dst' a2] t2]. cbn [fst snd] in Hl, Hfl.
  destruct Hl as (Hn & _ & _ & Hld). cbn.
  split; [done|]. split; [done|]. split; [done|]. split; [done|].
  intros Hkeep Hks Hkd. destruct (Hfl Hkeep Hkd) as [-> _]. by apply Hfu.
Qed.

(** [Environment.__eq__] is reflexive and symmetric, and an Environment still equals itself after [load()] or [unload()]: the comparison ignores the activation state. *)
Theorem Environment_eq_refl_sym_activation (e1 e2 : Environment) (a : Ambient) :
  Environment_eq e1 e1 = true ∧
  Environment_eq e1 e2 = Environment_eq e2 e1 ∧
  Environment_eq (load sys e1 a).1.1 e1 = true ∧
  Environment_eq (unload sys e1 a).1.1 e1 = true.
Proof.
  assert (Hsame : ∀ x y, name x = name y -> modules x = modules y ->
                         variables x = variables y -> Environment_eq x y = true).
  { intros x y Hn Hm Hv. unfold Environment_eq, od_eq. rewrite Hn, Hm, Hv.
    rewrite !bool_decide_eq_true_2 by done. apply keys_pairwise_eq_refl. }
  split; [by apply Hsame|]. split.
  - unfold Environment_eq. rewrite od_eq_sym. f_equal. f_equal;
      apply bool_decide_ext; split; congruence.
  - destruct (load_fields e1 a) as (? & ? & ? & _).
    split; apply Hsame; try done; by rewrite unload_fields.
Qed.

End LoadUnloadLog.

(** [os.path.expandvars] leaves a string without [$] as it is. *)
Theorem expandvars_no_dollar (environ : gmap string string) (s : string) :
  "$"%char ∉ Strings.String.list_ascii_of_string s -> expandvars environ s = s.
Proof. apply expand_aux_no_dollar. Qed.

(** References to unset variables are kept verbatim: when no variable set in the environment occurs in [s] as [$name] or [${name}], [os.path.expandvars] returns [s] unchanged. *)
Theorem expandvars_unset_references (environ : gmap string string) (s : string) :
  (∀ nm v, environ !! nm = Some v ->
     occurs ("$" +:+ nm) s = false ∧ occurs ("${" +:+ nm +:+ "}") s = false) ->
  expandvars environ s = s.
Proof. apply expand_aux_unset. Qed.

(** ** Witnesses *)

(** [gcc] conflicts with the loaded [intel]: after [load()] the
    Environment is active and [unload()] reloads [intel]. *)
Lemma unload_log_witness :
  let c := example_system [("gcc", "intel")] [] in
  let e := (load c (Environment_new "gcc-env" ["gcc"] []) (mkAmbient ∅ ["intel"])).1.1 in
  let a := mkAmbient ∅ ["gcc"] in
  loaded e = true ∧
  ∃ css : list (list string),
    length css = length (conflicted e) ∧
    (unload c e a).2 =
      map ReqUnload (filter (fun m => m ∉ preloaded e) (rev (modules e))) ++
      zip_with (fun m cs => ReqLoad false m cs) (conflicted e) css.
Proof.
  intros c e a.
  assert (Hl : loaded e = true) by (vm_compute; reflexivity).
  split; [exact Hl|]. exact (unload_log c e a Hl).
Defined.

(** Module [gcc] sets [CC]; [HOME] is neither declared by the
    Environment nor touched by [gcc]. *)
Lemma load_unload_frame_witness :
  let sys := example_system [] [("gcc", ("CC", "gcc"))] in
  let e := Environment_new "gcc-env" ["gcc"] [("CC", "gcc")] in
  let a := mkAmbient (<["HOME":="/home/u"]> ∅) [] in
  module_keeps sys "HOME" ∧ ("HOME" ∉ map fst (variables e)) ∧
  amb_env (load sys e a).1.2 !! "HOME" = amb_env a !! "HOME" ∧
  saved_variables (load sys e a).1.1 !! "HOME" = saved_variables e !! "HOME" ∧
  amb_env (unload sys e a).1.2 !! "HOME" = amb_env a !! "HOME".
Proof.
  intros sys e a.
  assert (Hkeep : module_keeps sys "HOME").
  { apply example_system_keeps. cbn.
    apply not_elem_of_cons. split; [discriminate|apply not_elem_of_nil]. }
  assert (Hk : "HOME" ∉ map fst (variables e)).
  { cbn. apply not_elem_of_cons. split; [discriminate|apply not_elem_of_nil]. }
  split; [exact Hkeep|]. split; [exact Hk|].
  exact (load_unload_frame sys e a "HOME" Hkeep Hk).
Defined.

(** Loading [gcc] forces [intel] out; the Environment is then loaded. *)
Lemma load_establishes_is_loaded_witness :
  let c := example_system [("gcc", "intel")] [] in
  let e := Environment_new "gcc-env" ["gcc"] [("CC", "gcc")] in
  let a := mkAmbient (<["CC":="icc"]> ∅) ["intel"] in
  conflicted (load c e a).1.1 = ["intel"] ∧
  is_loaded (load c e a).1.1 (load c e a).1.2 = true.
Proof.
  intros c e a.
  assert (Hc : conflicted (load c e a).1.1 = ["intel"]) by (vm_compute; reflexivity).
  split; [exact Hc|].
  apply (load_establishes_is_loaded c e a).
  - cbn. apply NoDup_singleton.
  - intros k v Hkv. cbn in Hkv. apply list_elem_of_singleton in Hkv.
    injection Hkv as -> ->. cbn.
    repeat (apply not_elem_of_cons; split; [discriminate|]). apply not_elem_of_nil.
  - intros m Hm. cbn in Hm. apply list_elem_of_singleton in Hm as ->.
    assert (H0 : length (conflicted e) = 0) by reflexivity.
    rewrite Hc, H0, drop_0.
    apply not_elem_of_cons. split; [discriminate|apply not_elem_of_nil].
Defined.

(** [gcc] is already loaded: [load()] changes no module and [unload()]
    unloads none. *)
Lemma load_with_modules_already_loaded_witness :
  let sys := example_system [] [] in
  let e := Environment_new "gcc-env" ["gcc"] [] in
  let a := mkAmbient ∅ ["gcc"; "intel"] in
  amb_mods (load sys e a).1.2 = amb_mods a ∧
  conflicted (load sys e a).1.1 = conflicted e ∧
  (∀ m, m ∈ modules e -> m ∈ preloaded (load sys e a).1.1) ∧
  (∀ m, ReqUnload m ∉ (unload sys (load sys e a).1.1 a).2).
Proof.
  intros sys e a. apply (load_with_modules_already_loaded sys e a a).
  intros m Hm. cbn in Hm. apply list_elem_of_singleton in Hm as ->. cbn.
  apply elem_of_cons. by left.
Defined.

(** [CC=icc] in [os.environ]; an Environment declaring [gcc] (which sets
    [PATH]) and [CC=gcc] is loaded twice, then unloaded: [CC] stays [gcc]. *)
Lemma load_twice_unload_restores_first_load_witness :
  let sys := example_system [] [("gcc", ("PATH", "/opt/gcc/bin"))] in
  let e := Environment_new "gcc-env" ["gcc"] [("CC", "gcc")] in
  let a := mkAmbient (<["CC":="icc"]> ∅) [] in
  let r1 := load sys e a in
  let r2 := load sys r1.1.1 r1.1.2 in
  amb_env (unload sys r2.1.1 r2.1.2).1.2 !! "CC" = amb_env r1.1.2 !! "CC" ∧
  amb_env r1.1.2 !! "CC" = Some "gcc" ∧ amb_env a !! "CC" = Some "icc".
Proof.
  intros sys e a r1 r2. split; [|split; vm_compute; reflexivity].
  apply (load_twice_unload_restores_first_load sys e a "CC" "gcc" [] []).
  - reflexivity.
  - apply not_elem_of_nil.
  - apply not_elem_of_nil.
  - apply example_system_keeps. cbn.
    apply not_elem_of_cons. split; [discriminate|apply not_elem_of_nil].
Defined.

(** A string without [$] is left as it is. *)
Lemma expandvars_no_dollar_witness :
  ("$"%char ∉ Strings.String.list_ascii_of_string "gcc") ∧
  expandvars (<["gcc":="icc"]> ∅) "gcc" = "gcc".
Proof.
  assert (H : "$"%char ∉ Strings.String.list_ascii_of_string "gcc").
  { cbn. repeat (apply not_elem_of_cons; split; [discriminate|]). apply not_elem_of_nil. }
  split; [exact H|]. exact (expandvars_no_dollar (<["gcc":="icc"]> ∅) "gcc" H).
Defined.

(** [HOME] is set, but only the unset [NOPE] and [X] are referenced. *)
Lemma expandvars_unset_references_witness :
  expandvars (<["HOME":="/home/u"]> ∅) "$NOPE:${X}/bin" = "$NOPE:${X}/bin".
Proof.
  apply expandvars_unset_references.
  intros nm v H. apply lookup_insert_Some in H as [[<- _]|[_ H]].
  - split; vm_compute; reflexivity.
  - by rewrite lookup_empty in H.
Defined.
